(** * Neural Snake: the game-state logic of [src/components/SnakeGame.tsx]

    The React component owns five pieces of state ([gameState], [snake],
    [food], [direction], [score]) and mutates them from three places: the
    interval callback [gameLoop], the [keydown] listener [handleKeyPress] and
    the click handler [startGame].  Each of them is embedded below as a
    function on an explicit state record.  The two copies of the component in
    the source file differ only by the sound played when food is eaten, which
    touches none of the five state variables.

    Events are handled one at a time on the browser's event queue, and every
    callback is re-created whenever a state variable it reads changes
    (the dependency lists of lines 77 and 125), so each event is applied to
    the state left by the previous one. *)

From Stdlib Require Import ZArith List String Bool Lia.
Import ListNotations.

#[local] Open Scope Z_scope.

Module SnakeGame.

(** ** Constants and types (source lines 5-11) *)

Definition GRID_SIZE : Z := 20.

(** [type Position = { x: number; y: number }].  Every coordinate the code
    builds is an integer, so [number] is modelled by [Z]. *)
Record Position : Type := mkPosition { x : Z; y : Z }.

Definition INITIAL_SNAKE : list Position := [mkPosition 10 10].
Definition INITIAL_FOOD : Position := mkPosition 15 15.
Definition INITIAL_DIRECTION : Position := mkPosition 0 (-1).

(** [type GameState = 'menu' | 'playing' | 'paused' | 'gameOver'] *)
Inductive GameState : Type := menu | playing | paused | gameOver.

(** The five [useState] cells of the component. *)
Record State : Type := mkState {
  gameState : GameState;
  snake : list Position;
  food : Position;
  direction : Position;
  score : Z
}.

Definition setGameState (g : GameState) (s : State) : State :=
  mkState g (snake s) (food s) (direction s) (score s).
Definition setSnake (b : list Position) (s : State) : State :=
  mkState (gameState s) b (food s) (direction s) (score s).
Definition setFood (f : Position) (s : State) : State :=
  mkState (gameState s) (snake s) f (direction s) (score s).
Definition setDirection (d : Position) (s : State) : State :=
  mkState (gameState s) (snake s) (food s) d (score s).
Definition setScore (n : Z) (s : State) : State :=
  mkState (gameState s) (snake s) (food s) (direction s) n.

(** The state the component is mounted with (lines 14-18). *)
Definition initialState : State :=
  mkState menu INITIAL_SNAKE INITIAL_FOOD INITIAL_DIRECTION 0.

(** ** The random source

    [Math.floor(Math.random() * GRID_SIZE)] is the only use of randomness.
    The successive values of that expression are modelled by a stream
    [rnd : nat -> Z]: [rnd n] is the value of the [n]-th evaluation.  Since
    [Math.random()] lies in [0, 1), every value lies in [0, GRID_SIZE). *)
Definition Random : Type := nat -> Z.

Definition valid_random (rnd : Random) : Prop :=
  forall n : nat, 0 <= rnd n < GRID_SIZE.

(** ** generateFood (lines 20-29) *)

(** [snakeBody.some(segment => segment.x === p.x && segment.y === p.y)] *)
Definition occupied (snakeBody : list Position) (p : Position) : bool :=
  existsb (fun segment => (x segment =? x p) && (y segment =? y p)) snakeBody.

(** The candidate built by the [i]-th execution of the loop body: the object
    literal evaluates [x] first, then [y]. *)
Definition proposal (rnd : Random) (i : nat) : Position :=
  mkPosition (rnd (2 * i)%nat) (rnd (2 * i + 1)%nat).

(** The [do ... while] loop, entered at iteration [i]; [fuel] bounds the
    number of executions of the loop body, [None] means the bound was reached
    with the loop still running. *)
Fixpoint generateFood_from (fuel : nat) (rnd : Random) (i : nat)
    (snakeBody : list Position) : option Position :=
  match fuel with
  | O => None
  | S fuel' =>
      let newFood := proposal rnd i in
      if occupied snakeBody newFood
      then generateFood_from fuel' rnd (S i) snakeBody
      else Some newFood
  end.

Definition generateFood (fuel : nat) (rnd : Random)
    (snakeBody : list Position) : option Position :=
  generateFood_from fuel rnd 0 snakeBody.

(** ** resetGame and startGame (lines 31-41) *)

Definition resetGame (s : State) : State :=
  setScore 0 (setDirection INITIAL_DIRECTION
    (setFood INITIAL_FOOD (setSnake INITIAL_SNAKE s))).

Definition startGame (s : State) : State :=
  setGameState playing (resetGame s).

(** ** gameLoop (lines 43-77) *)

(** The wall test of line 54. *)
Definition hitsWall (head : Position) : bool :=
  (x head <? 0) || (x head >=? GRID_SIZE) || (y head <? 0) || (y head >=? GRID_SIZE).

(** [head] after lines 48-51, for a snake whose first segment is [h]. *)
Definition nextHead (h d : Position) : Position :=
  mkPosition (x h + x d) (y h + y d).

(** The updater passed to [setSnake] (lines 46-76) together with the state
    changes it requests.  [newSnake.unshift(head)] is a cons and
    [newSnake.pop()] is [removelast].

    On an empty snake [newSnake[0]] is [undefined], both coordinates of
    [head] become [NaN], every comparison is false, and the head that was
    unshifted is popped again: nothing changes. *)
Definition step (fuel : nat) (rnd : Random) (s : State) : option State :=
  match snake s with
  | [] => Some s
  | h :: _ =>
      let head := nextHead h (direction s) in
      if hitsWall head then Some (setGameState gameOver s)
      else if occupied (snake s) head then Some (setGameState gameOver s)
      else
        let newSnake := head :: snake s in
        if (x head =? x (food s)) && (y head =? y (food s))
        then
          match generateFood fuel rnd newSnake with
          | Some newFood =>
              Some (setSnake newSnake (setFood newFood (setScore (score s + 10) s)))
          | None => None
          end
        else Some (setSnake (removelast newSnake) s)
  end.

(** Line 44: the callback does nothing unless the phase is [playing]. *)
Definition gameLoop (fuel : nat) (rnd : Random) (s : State) : option State :=
  match gameState s with
  | playing => step fuel rnd s
  | _ => Some s
  end.

(** ** handleKeyPress (lines 89-121) *)

#[local] Open Scope string_scope.

(** The vector a [case] group of the [switch] passes to [setDirection]. *)
Definition keyVector (key : string) : option Position :=
  if (key =? "ArrowUp") || (key =? "w") || (key =? "W")
  then Some (mkPosition 0 (-1))
  else if (key =? "ArrowDown") || (key =? "s") || (key =? "S")
  then Some (mkPosition 0 1)
  else if (key =? "ArrowLeft") || (key =? "a") || (key =? "A")
  then Some (mkPosition (-1) 0)
  else if (key =? "ArrowRight") || (key =? "d") || (key =? "D")
  then Some (mkPosition 1 0)
  else None.

Definition handleKeyPress (key : string) (s : State) : State :=
  match gameState s with
  | playing =>
      if (key =? "ArrowUp") || (key =? "w") || (key =? "W")
      then if (y (direction s) =? 0)%Z
           then setDirection (mkPosition 0 (-1)) s else s
      else if (key =? "ArrowDown") || (key =? "s") || (key =? "S")
      then if (y (direction s) =? 0)%Z
           then setDirection (mkPosition 0 1) s else s
      else if (key =? "ArrowLeft") || (key =? "a") || (key =? "A")
      then if (x (direction s) =? 0)%Z
           then setDirection (mkPosition (-1) 0) s else s
      else if (key =? "ArrowRight") || (key =? "d") || (key =? "D")
      then if (x (direction s) =? 0)%Z
           then setDirection (mkPosition 1 0) s else s
      else if key =? " " then setGameState paused s
      else s
  | paused => if key =? " " then setGameState playing s else s
  | _ => s
  end.

#[local] Close Scope string_scope.

(** ** The component as a transition system

    Three kinds of event reach the state: a timer tick, a key press and a
    click on the start button.  The button is rendered only in the phases
    [menu] and [gameOver] (lines 142-160 and 174-189). *)
Inductive Event : Type :=
| Tick (fuel : nat) (rnd : Random)
| KeyDown (key : string)
| StartClick.

Definition startVisible (s : State) : bool :=
  match gameState s with
  | menu | gameOver => true
  | _ => false
  end.

Definition dispatch (e : Event) (s : State) : option State :=
  match e with
  | Tick fuel rnd => gameLoop fuel rnd s
  | KeyDown key => Some (handleKeyPress key s)
  | StartClick => if startVisible s then Some (startGame s) else None
  end.

Inductive reachable : State -> Prop :=
| reachable_init : reachable initialState
| reachable_step (s s' : State) (e : Event) :
    reachable s -> dispatch e s = Some s' -> reachable s'.

(** ** Predicates used by the statements *)

(** The snake invariant of the data model: at least one segment, no two
    segments on the same cell. *)
Definition snakeInv (b : list Position) : Prop :=
  (1 <= List.length b)%nat /\ NoDup b.

(** The four unit vectors a direction ranges over. *)
Definition isDirection (d : Position) : Prop :=
  d = mkPosition 0 (-1) \/ d = mkPosition 0 1 \/
  d = mkPosition (-1) 0 \/ d = mkPosition 1 0.

Definition inGrid (p : Position) : Prop :=
  0 <= x p < GRID_SIZE /\ 0 <= y p < GRID_SIZE.

(** Two vectors lie on one axis when their cross product vanishes. *)
Definition sameAxis (v d : Position) : Prop :=
  x v * y d - y v * x d = 0.

Definition reverse (d : Position) : Position :=
  mkPosition (- x d) (- y d).

(** All [GRID_SIZE * GRID_SIZE] cells, row by row. *)
Definition allCells : list Position :=
  flat_map (fun j => map (fun i => mkPosition (Z.of_nat i) (Z.of_nat j))
                         (seq 0 (Z.to_nat GRID_SIZE)))
           (seq 0 (Z.to_nat GRID_SIZE)).

(** The stream whose first [bound] candidates are [q] and all later ones
    [p]: even draws are [x] coordinates, odd draws [y] coordinates. *)
Definition stutter (bound : nat) (q p : Position) : Random :=
  fun k =>
    let c := if (k <? 2 * bound)%nat then q else p in
    if Nat.even k then x c else y c.

(** Iteration [n] of the loop of [generateFood] is the first one, counted
    from [i], whose candidate is not on [body]. *)
Definition firstFreeFrom (rnd : Random) (body : list Position) (i n : nat) : Prop :=
  (i <= n)%nat /\
  occupied body (proposal rnd n) = false /\
  forall m : nat, (i <= m < n)%nat -> occupied body (proposal rnd m) = true.

(** What every reachable state satisfies. *)
Definition stateInv (s : State) : Prop :=
  snakeInv (snake s) /\ isDirection (direction s) /\ ~ In (food s) (snake s).

(** ** Rendering of the grid (lines 203-246)

    [Array.from({ length: GRID_SIZE * GRID_SIZE }).map((_, index) => ...)]
    draws one cell per index.  [%] is the truncating remainder and
    [Math.floor(index / GRID_SIZE)] the floor quotient.  The two copies of
    the component differ in the class names and sprites they attach to a
    cell, not in the tests that choose them. *)
Definition gridIndices : list Z :=
  map Z.of_nat (seq 0 (Z.to_nat (GRID_SIZE * GRID_SIZE))).

Definition cellPosition (index : Z) : Position :=
  mkPosition (Z.rem index GRID_SIZE) (index / GRID_SIZE).

(** [snake[0]?.x === x && snake[0]?.y === y]: false on an empty snake. *)
Definition isSnakeHead (s : State) (c : Position) : bool :=
  match snake s with
  | [] => false
  | h :: _ => (x h =? x c) && (y h =? y c)
  end.

(** [snake.slice(1).some(segment => segment.x === x && segment.y === y)] *)
Definition isSnakeBody (s : State) (c : Position) : bool :=
  occupied (tl (snake s)) c.

Definition isFood (s : State) (c : Position) : bool :=
  (x (food s) =? x c) && (y (food s) =? y c).

(** The branch of the [if ... else if] chain that picks the background of a
    cell (lines 213-221). *)
Inductive CellKind : Type := HeadCell | BodyCell | FoodCell | EmptyCell.

Definition cellKind (s : State) (c : Position) : CellKind :=
  if isSnakeHead s c then HeadCell
  else if isSnakeBody s c then BodyCell
  else if isFood s c then FoodCell
  else EmptyCell.

(** The guard of line 191: the grid is rendered only in the phases
    [playing] and [paused]. *)
Definition gridVisible (s : State) : bool :=
  match gameState s with
  | playing | paused => true
  | _ => false
  end.

(** The cells on screen: under the guard, one per index, each with the
    background branch chosen for it; none otherwise. *)
Definition drawnCells (s : State) : list (Z * CellKind) :=
  if gridVisible s
  then map (fun index => (index, cellKind s (cellPosition index))) gridIndices
  else [].

(** ** Runs of events *)

Fixpoint run (es : list Event) (s : State) : option State :=
  match es with
  | [] => Some s
  | e :: es' =>
      match dispatch e s with
      | Some s' => run es' s'
      | None => None
      end
  end.

(** A tick draws its random numbers in [0, GRID_SIZE). *)
Definition validEvent (e : Event) : Prop :=
  match e with
  | Tick _ rnd => valid_random rnd
  | _ => True
  end.

(** An event that is not a click on the start button. *)
Definition noStart (e : Event) : Prop :=
  match e with
  | StartClick => False
  | _ => True
  end.

(** A tick, or a key other than Space. *)
Definition noSpaceNoStart (e : Event) : Prop :=
  match e with
  | Tick _ _ => True
  | KeyDown key => key <> " "%string
  | StartClick => False
  end.

(** ** Further predicates *)

(** Neighbouring cells: one step apart along one axis. *)
Definition adjacent (p q : Position) : Prop :=
  Z.abs (x p - x q) + Z.abs (y p - y q) = 1.

(** Every segment is a neighbour of the next one. *)
Fixpoint contiguous (b : list Position) : Prop :=
  match b with
  | [] => True
  | p :: t =>
      match t with
      | [] => True
      | q :: _ => adjacent p q /\ contiguous t
      end
  end.

(** Boolean test that no position occurs twice. *)
Fixpoint distinctb (b : list Position) : bool :=
  match b with
  | [] => true
  | p :: t => negb (occupied t p) && distinctb t
  end.

(** The grid walked row by row, alternately left to right and right to
    left, from (0,0): a path through all cells. *)
Definition serpentine : list Position :=
  flat_map (fun j => map (fun i => mkPosition (Z.of_nat i) (Z.of_nat j))
                         (if Nat.even j
                          then seq 0 (Z.to_nat GRID_SIZE)
                          else rev (seq 0 (Z.to_nat GRID_SIZE))))
           (seq 0 (Z.to_nat GRID_SIZE)).

(** What every reachable state satisfies besides [stateInv]. *)
Definition gameInv (s : State) : Prop :=
  Forall inGrid (snake s) /\
  contiguous (snake s) /\
  score s = 10 * (Z.of_nat (List.length (snake s)) - 1).

End SnakeGame.

Import SnakeGame.

(** * Basic facts about the embedding *)

Section ListFacts.

Lemma occupied_true_iff (b : list Position) (p : Position) :
  occupied b p = true <-> In p b.
Proof.
  unfold occupied. rewrite existsb_exists. split.
  - intros [q [Hq Heq]]. apply andb_true_iff in Heq as [Hx Hy].
    apply Z.eqb_eq in Hx, Hy. destruct q, p; simpl in *. subst. exact Hq.
  - intros Hin. exists p. split; [exact Hin|].
    now rewrite !Z.eqb_refl.
Qed.

Lemma occupied_false_iff (b : list Position) (p : Position) :
  occupied b p = false <-> ~ In p b.
Proof.
  rewrite <- occupied_true_iff. destruct (occupied b p); split; intros; congruence.
Qed.

Lemma In_removelast {A : Type} (a : A) (l : list A) :
  In a (removelast l) -> In a l.
Proof.
  induction l as [|b l IH]; simpl; [tauto|].
  destruct l as [|c l]; simpl in *; [tauto|].
  intros [E|Hin]; [now left|right; now apply IH].
Qed.

Lemma NoDup_removelast {A : Type} (l : list A) :
  NoDup l -> NoDup (removelast l).
Proof.
  induction 1 as [|b l Hb Hnd IH]; simpl; [constructor|].
  destruct l as [|c l]; [constructor|].
  constructor; [|exact IH].
  intros Hin. apply Hb. now apply In_removelast.
Qed.

Lemma length_removelast_cons {A : Type} (a : A) (l : list A) :
  List.length (removelast (a :: l)) = List.length l.
Proof.
  revert a. induction l as [|b l IH]; intros a; [reflexivity|].
  change (removelast (a :: b :: l)) with (a :: removelast (b :: l)).
  cbn [List.length]. now rewrite (IH b).
Qed.

Lemma In_last_cons {A : Type} (a d : A) (l : list A) :
  In (last (a :: l) d) (a :: l).
Proof.
  revert a. induction l as [|b l IH]; intros a; [now left|].
  right. change (last (a :: b :: l) d) with (last (b :: l) d). apply IH.
Qed.

Lemma GameState_eq_playing (g : GameState) : {g = playing} + {g <> playing}.
Proof. destruct g; (now left) || (right; discriminate). Defined.

Lemma eats_iff (head f : Position) :
  (x head =? x f) && (y head =? y f) = true <-> head = f.
Proof.
  rewrite andb_true_iff, !Z.eqb_eq. destruct head, f; simpl.
  split; [intros [-> ->]; reflexivity | intros E; now inversion E].
Qed.

Lemma hitsWall_false_iff (p : Position) : hitsWall p = false <-> inGrid p.
Proof.
  unfold hitsWall, inGrid, GRID_SIZE.
  rewrite !orb_false_iff, !Z.ltb_ge, !Z.geb_leb, !Z.leb_gt. lia.
Qed.

Lemma hitsWall_true_iff (p : Position) : hitsWall p = true <-> ~ inGrid p.
Proof.
  rewrite <- hitsWall_false_iff. destruct (hitsWall p); split; intros; congruence.
Qed.

End ListFacts.

(** * The rejection-sampling loop *)

Section GenerateFood.

Variable rnd : Random.
Variable body : list Position.

Lemma generateFood_from_sound (fuel i : nat) (p : Position) :
  generateFood_from fuel rnd i body = Some p ->
  exists n : nat, (n < i + fuel)%nat /\ firstFreeFrom rnd body i n /\ p = proposal rnd n.
Proof.
  revert i. induction fuel as [|fuel IH]; intros i; simpl; [discriminate|].
  destruct (occupied body (proposal rnd i)) eqn:Hocc.
  - intros Hrun. destruct (IH _ Hrun) as [n [Hlt [[Hle [Hfree Hbusy]] Hp]]].
    exists n. repeat split; try lia; try assumption.
    intros m Hm. destruct (Nat.eq_dec m i) as [->|Hne]; [exact Hocc|].
    apply Hbusy. lia.
  - intros [= <-]. exists i. repeat split; try lia; try assumption.
Qed.

Lemma generateFood_from_complete (fuel i n : nat) :
  firstFreeFrom rnd body i n -> (n < i + fuel)%nat ->
  generateFood_from fuel rnd i body = Some (proposal rnd n).
Proof.
  revert i. induction fuel as [|fuel IH]; intros i [Hle [Hfree Hbusy]] Hlt; [lia|].
  simpl. destruct (Nat.eq_dec n i) as [->|Hne].
  - now rewrite Hfree.
  - rewrite (Hbusy i) by lia. apply IH; [|lia].
    repeat split; try lia; try assumption.
    intros m Hm. apply Hbusy. lia.
Qed.

Lemma generateFood_from_all_busy (fuel i : nat) :
  (forall m : nat, occupied body (proposal rnd m) = true) ->
  generateFood_from fuel rnd i body = None.
Proof.
  intros Hbusy. revert i. induction fuel as [|fuel IH]; intros i; simpl; [reflexivity|].
  now rewrite Hbusy.
Qed.

(** A free candidate somewhere in the stream gives a first one. *)
Lemma firstFree_exists (n : nat) :
  occupied body (proposal rnd n) = false ->
  exists k : nat, (k <= n)%nat /\ firstFreeFrom rnd body 0 k.
Proof.
  induction n as [n IH] using (well_founded_induction Wf_nat.lt_wf).
  intros Hfree.
  assert (Hdec : (exists m, (m < n)%nat /\ occupied body (proposal rnd m) = false) \/
                 (forall m, (m < n)%nat -> occupied body (proposal rnd m) = true)).
  { clear IH Hfree. induction n as [|n IHn].
    - right. intros m Hm. lia.
    - destruct IHn as [[m [Hm Hf]]|Hall].
      + left. exists m. split; [lia|exact Hf].
      + destruct (occupied body (proposal rnd n)) eqn:Hn.
        * right. intros m Hm. destruct (Nat.eq_dec m n) as [->|Hne]; [exact Hn|].
          apply Hall. lia.
        * left. exists n. split; [lia|exact Hn]. }
  destruct Hdec as [[m [Hm Hf]]|Hall].
  - destruct (IH m Hm Hf) as [k [Hk Hfirst]]. exists k. split; [lia|exact Hfirst].
  - exists n. split; [lia|]. repeat split; try lia; try assumption.
    intros m Hm. apply Hall. lia.
Qed.

Lemma generateFood_from_busy_prefix (fuel i : nat) :
  (forall m : nat, (i <= m < i + fuel)%nat -> occupied body (proposal rnd m) = true) ->
  generateFood_from fuel rnd i body = None.
Proof.
  revert i. induction fuel as [|fuel IH]; intros i Hbusy; simpl; [reflexivity|].
  rewrite (Hbusy i) by lia. apply IH. intros m Hm. apply Hbusy. lia.
Qed.

Lemma generateFood_fuel_mono (fuel fuel' : nat) (p : Position) :
  generateFood fuel rnd body = Some p -> (fuel <= fuel')%nat ->
  generateFood fuel' rnd body = Some p.
Proof.
  unfold generateFood. intros Hrun Hle.
  destruct (generateFood_from_sound _ _ _ Hrun) as [n [Hlt [Hfirst ->]]].
  apply generateFood_from_complete; [exact Hfirst|lia].
Qed.

End GenerateFood.

(** * The keyboard handler *)

(** Splits [handleKeyPress] (and [keyVector]) along the phase and along every
    test of the [switch]. *)
Ltac key_cases s :=
  unfold handleKeyPress, keyVector in *;
  destruct (gameState s) eqn:?;
  repeat match goal with
         | H : context [if ?b then _ else _] |- _ => destruct b eqn:?
         | |- context [if ?b then _ else _] => destruct b eqn:?
         end.

Section Keyboard.

Variable key : string.
Variable s : State.

Lemma handleKeyPress_snake : snake (handleKeyPress key s) = snake s.
Proof. key_cases s; reflexivity. Qed.

Lemma handleKeyPress_food : food (handleKeyPress key s) = food s.
Proof. key_cases s; reflexivity. Qed.

Lemma handleKeyPress_score : score (handleKeyPress key s) = score s.
Proof. key_cases s; reflexivity. Qed.

Lemma handleKeyPress_isDirection :
  isDirection (direction s) -> isDirection (direction (handleKeyPress key s)).
Proof. unfold isDirection. key_cases s; simpl; tauto. Qed.

(** Outside [playing], and outside Space in [paused], nothing happens. *)
Lemma handleKeyPress_idle :
  gameState s <> playing ->
  ~ (gameState s = paused /\ key = " "%string) ->
  handleKeyPress key s = s.
Proof.
  intros Hplay Hpause. key_cases s; try reflexivity; try congruence.
  exfalso. apply Hpause. split; [reflexivity|]. now apply String.eqb_eq.
Qed.

(** A key of the four movement groups is not Space. *)
Lemma keyVector_not_space (v : Position) :
  keyVector key = Some v -> (key =? " ")%string = false.
Proof.
  unfold keyVector. intros Hv. destruct (key =? " ")%string eqn:Hsp; [|reflexivity].
  apply String.eqb_eq in Hsp. subst key. simpl in Hv. discriminate.
Qed.

(** In phase [playing] a movement key whose vector is off the axis of the
    current direction is taken: the handler does turn the snake. *)
Lemma handleKeyPress_turn (v : Position) :
  gameState s = playing -> isDirection (direction s) ->
  keyVector key = Some v -> ~ sameAxis v (direction s) ->
  handleKeyPress key s = setDirection v s.
Proof.
  intros Hp Hd Hv Hax. unfold sameAxis in Hax.
  unfold handleKeyPress, keyVector in *. rewrite Hp.
  repeat match goal with
         | H : context [if ?b then _ else _] |- _ => destruct b eqn:?
         end;
    try discriminate; injection Hv as <-; simpl in Hax;
    destruct Hd as [E|[E|[E|E]]]; rewrite E in *; simpl in *;
    reflexivity || lia.
Qed.

End Keyboard.

(** * The tick *)

(** Reduces the field reads of a state built by the setters. *)
Ltac fields :=
  cbn [gameState snake food direction score
       setGameState setSnake setFood setDirection setScore] in *.

Section Tick.

Variable fuel : nat.
Variable rnd : Random.

(** The three ways a tick in phase [playing] can end for a non-empty
    snake: a collision, a plain move, or a move that eats. *)
Lemma step_cases (s s' : State) (h : Position) (t : list Position) :
  snake s = h :: t ->
  step fuel rnd s = Some s' ->
  let head := nextHead h (direction s) in
  (s' = setGameState gameOver s /\ (~ inGrid head \/ In head (snake s))) \/
  (s' = setSnake (removelast (head :: snake s)) s /\
     inGrid head /\ ~ In head (snake s) /\ head <> food s) \/
  (exists newFood : Position,
     generateFood fuel rnd (head :: snake s) = Some newFood /\
     s' = setSnake (head :: snake s) (setFood newFood (setScore (score s + 10) s)) /\
     inGrid head /\ ~ In head (snake s) /\ head = food s).
Proof.
  intros Hs. unfold step. rewrite Hs. cbv zeta.
  destruct (hitsWall (nextHead h (direction s))) eqn:Hwall.
  { intros [= <-]. left. split; [reflexivity|]. left. now apply hitsWall_true_iff. }
  apply hitsWall_false_iff in Hwall.
  destruct (occupied (h :: t) (nextHead h (direction s))) eqn:Hocc.
  { intros [= <-]. left. split; [reflexivity|]. right. now apply occupied_true_iff. }
  apply occupied_false_iff in Hocc.
  destruct ((x (nextHead h (direction s)) =? x (food s)) &&
            (y (nextHead h (direction s)) =? y (food s))) eqn:Heat.
  - apply eats_iff in Heat.
    destruct (generateFood fuel rnd (nextHead h (direction s) :: h :: t)) as [f|] eqn:Hgen;
      [|discriminate].
    intros [= <-]. right. right. exists f. auto.
  - intros [= <-]. right. left.
    split; [reflexivity|]. split; [exact Hwall|]. split; [exact Hocc|].
    intros Hf. apply eats_iff in Hf. congruence.
Qed.

Lemma step_snakeInv (s s' : State) :
  snakeInv (snake s) -> step fuel rnd s = Some s' -> snakeInv (snake s').
Proof.
  intros [Hlen Hnd] Hstep.
  destruct (snake s) as [|h t] eqn:Hs; [simpl in Hlen; lia|].
  destruct (step_cases s s' h t Hs Hstep) as
    [[-> _]|[[-> [_ [Hfresh _]]]|[f [_ [-> [_ [Hfresh _]]]]]]]; fields.
  - rewrite Hs. split; assumption.
  - rewrite Hs in *. split.
    + rewrite length_removelast_cons. exact Hlen.
    + apply NoDup_removelast. constructor; assumption.
  - rewrite Hs in *. split; [simpl; lia|]. constructor; assumption.
Qed.

Lemma gameLoop_idle (s : State) :
  gameState s <> playing -> gameLoop fuel rnd s = Some s.
Proof. unfold gameLoop. destruct (gameState s); congruence. Qed.

Lemma gameLoop_playing (s : State) :
  gameState s = playing -> gameLoop fuel rnd s = step fuel rnd s.
Proof. unfold gameLoop. now intros ->. Qed.

Lemma gameLoop_snakeInv (s s' : State) :
  snakeInv (snake s) -> gameLoop fuel rnd s = Some s' -> snakeInv (snake s').
Proof.
  intros Hinv. unfold gameLoop.
  destruct (gameState s); try (intros [= <-]; exact Hinv).
  now apply step_snakeInv.
Qed.

Lemma gameLoop_direction (s s' : State) :
  gameLoop fuel rnd s = Some s' -> direction s' = direction s.
Proof.
  unfold gameLoop.
  destruct (gameState s) eqn:Hg; try (intros [= <-]; reflexivity).
  destruct (snake s) as [|h t] eqn:Hs.
  - unfold step. rewrite Hs. now intros [= <-].
  - intros Hstep.
    destruct (step_cases s s' h t Hs Hstep) as
      [[-> _]|[[-> _]|[f [_ [-> _]]]]]; reflexivity.
Qed.

(** Food stays off the snake across a tick. *)
Lemma gameLoop_food_free (s s' : State) :
  ~ In (food s) (snake s) -> gameLoop fuel rnd s = Some s' ->
  ~ In (food s') (snake s').
Proof.
  intros Hfree. unfold gameLoop.
  destruct (gameState s) eqn:Hg; try (intros [= <-]; exact Hfree).
  destruct (snake s) as [|h t] eqn:Hs.
  - unfold step. rewrite Hs. intros [= <-]. now rewrite Hs.
  - intros Hstep.
    destruct (step_cases s s' h t Hs Hstep) as
      [[-> _]|[[-> [_ [_ Hne]]]|[f [Hgen [-> _]]]]]; fields.
    + now rewrite Hs.
    + rewrite Hs in *. intros Hin. apply In_removelast in Hin.
      destruct Hin as [E|Hin]; [now apply Hne|now apply Hfree].
    + unfold generateFood in Hgen.
      destruct (generateFood_from_sound _ _ _ _ _ Hgen) as [n [_ [[_ [Hocc _]] ->]]].
      now apply occupied_false_iff.
Qed.

End Tick.

(** The plain move of the test list: snake [(10,10)], food (15,15),
    direction (1,0) gives snake [(11,10)] for any fuel and stream, with food,
    score and phase as they were. *)
Example plain_move_example (fuel : nat) (rnd : Random) :
  gameLoop fuel rnd
    (mkState playing [mkPosition 10 10] (mkPosition 15 15) (mkPosition 1 0) 0)
  = Some (mkState playing [mkPosition 11 10] (mkPosition 15 15) (mkPosition 1 0) 0).
Proof. reflexivity. Qed.

(** * Invariants of the reachable states *)

Lemma startGame_stateInv (s : State) : stateInv (startGame s).
Proof.
  unfold stateInv, snakeInv, isDirection. simpl. repeat split.
  - lia.
  - constructor; [simpl; tauto|constructor].
  - now left.
  - intros [E|[]]. discriminate.
Qed.

Lemma dispatch_stateInv (e : Event) (s s' : State) :
  stateInv s -> dispatch e s = Some s' -> stateInv s'.
Proof.
  intros [Hsnake [Hdir Hfood]]. destruct e as [fuel rnd|key|]; simpl.
  - intros Hrun. split; [|split].
    + apply (gameLoop_snakeInv fuel rnd s s' Hsnake Hrun).
    + rewrite (gameLoop_direction fuel rnd s s' Hrun). exact Hdir.
    + apply (gameLoop_food_free fuel rnd s s' Hfood Hrun).
  - intros [= <-]. unfold stateInv.
    rewrite handleKeyPress_snake, handleKeyPress_food.
    split; [exact Hsnake|]. split; [|exact Hfood].
    now apply handleKeyPress_isDirection.
  - destruct (startVisible s); [|discriminate].
    intros [= <-]. apply startGame_stateInv.
Qed.

Lemma reachable_stateInv (s : State) : reachable s -> stateInv s.
Proof.
  induction 1 as [|s s' e _ IH Hstep].
  - apply (startGame_stateInv initialState).
  - exact (dispatch_stateInv e s s' IH Hstep).
Qed.

(** * The snake invariant *)

(** C1.  In every reachable state the snake has at least one segment and no
    two segments on one cell.  A tick from a state whose snake is such either
    keeps the phase and returns a snake that is such again, or leaves the
    snake as it is and moves to [gameOver]; [resetGame] and [startGame]
    install a snake that is such. *)
Theorem snake_invariant_preserved (s : State) :
  (reachable s -> snakeInv (snake s)) /\
  (snakeInv (snake s) ->
   forall (fuel : nat) (rnd : Random) (s' : State),
     gameLoop fuel rnd s = Some s' ->
     snakeInv (snake s') /\
     ((gameState s' = gameState s /\
       NoDup (snake s') /\ (1 <= List.length (snake s'))%nat) \/
      (snake s' = snake s /\ gameState s' = gameOver))) /\
  snakeInv (snake (resetGame s)) /\
  snakeInv (snake (startGame s)).
Proof.
  split; [|split; [|split]].
  - intros Hr. apply (reachable_stateInv s Hr).
  - intros Hinv fuel rnd s' Hrun.
    pose proof (gameLoop_snakeInv fuel rnd s s' Hinv Hrun) as Hinv'.
    split; [exact Hinv'|].
    destruct Hinv' as [Hlen' Hnd'].
    destruct (GameState_eq_playing (gameState s)) as [Hp|Hp].
    + rewrite (gameLoop_playing fuel rnd s Hp) in Hrun.
      destruct (snake s) as [|h t] eqn:Hs; [destruct Hinv as [Hl _]; simpl in Hl; lia|].
      destruct (step_cases fuel rnd s s' h t Hs Hrun) as
        [[E _]|[[E _]|[f [_ [E _]]]]].
      * right. subst s'. fields. now rewrite Hs.
      * left. repeat split; try assumption. subst s'. reflexivity.
      * left. repeat split; try assumption. subst s'. reflexivity.
    + rewrite (gameLoop_idle fuel rnd s Hp) in Hrun. injection Hrun as <-.
      left. repeat split; assumption.
  - apply (startGame_stateInv s).
  - apply (startGame_stateInv s).
Qed.

Lemma snake_invariant_preserved_witness :
  snakeInv (snake (startGame initialState)) /\
  snakeInv (snake (mkState playing [mkPosition 10 9] INITIAL_FOOD INITIAL_DIRECTION 0)).
Proof.
  destruct (snake_invariant_preserved (startGame initialState)) as [Hreach [Hstep _]].
  assert (Hr : reachable (startGame initialState)).
  { apply (reachable_step initialState _ StartClick); [apply reachable_init|reflexivity]. }
  split; [exact (Hreach Hr)|].
  exact (proj1 (Hstep (Hreach Hr) 0%nat (fun _ => 0) _ eq_refl)).
Defined.

(** * Collisions *)

(** C2.  In phase [playing], for every snake with head [h] and every
    direction, a new head outside [0, GRID_SIZE) on either axis makes the
    tick set the phase to [gameOver] and leave snake, food, score (and
    direction) as they were. *)
Theorem wall_collision_game_over
    (fuel : nat) (rnd : Random) (s : State) (h : Position) (t : list Position) :
  gameState s = playing ->
  snake s = h :: t ->
  ~ inGrid (nextHead h (direction s)) ->
  exists s' : State,
    gameLoop fuel rnd s = Some s' /\
    gameState s' = gameOver /\
    snake s' = h :: t /\
    food s' = food s /\
    score s' = score s /\
    direction s' = direction s.
Proof.
  intros Hp Hs Hout. exists (setGameState gameOver s).
  rewrite (gameLoop_playing fuel rnd s Hp). unfold step. rewrite Hs. cbv zeta.
  apply hitsWall_true_iff in Hout. rewrite Hout. fields.
  repeat split; assumption.
Qed.

Lemma wall_collision_game_over_witness :
  exists s' : State,
    gameLoop 0 (fun _ => 0)
      (mkState playing [mkPosition 10 0; mkPosition 10 1]
               INITIAL_FOOD INITIAL_DIRECTION 30) = Some s' /\
    gameState s' = gameOver /\
    snake s' = [mkPosition 10 0; mkPosition 10 1] /\
    food s' = INITIAL_FOOD /\
    score s' = 30 /\
    direction s' = INITIAL_DIRECTION.
Proof.
  apply (wall_collision_game_over 0 (fun _ => 0)
           (mkState playing [mkPosition 10 0; mkPosition 10 1]
                    INITIAL_FOOD INITIAL_DIRECTION 30)
           (mkPosition 10 0) [mkPosition 10 1]).
  - reflexivity.
  - reflexivity.
  - unfold inGrid, GRID_SIZE. simpl. lia.
Defined.

(** C3.  In phase [playing], a new head that is inside the grid and lies on
    any segment of the current snake, the last one included, makes the tick
    set the phase to [gameOver] and leave the snake (and food, score) as it
    was. *)
Theorem self_collision_game_over
    (fuel : nat) (rnd : Random) (s : State) (h : Position) (t : list Position) :
  gameState s = playing ->
  snake s = h :: t ->
  inGrid (nextHead h (direction s)) ->
  In (nextHead h (direction s)) (snake s) \/
    nextHead h (direction s) = last (snake s) h ->
  exists s' : State,
    gameLoop fuel rnd s = Some s' /\
    gameState s' = gameOver /\
    snake s' = snake s /\
    food s' = food s /\
    score s' = score s.
Proof.
  intros Hp Hs Hin Hhit. exists (setGameState gameOver s).
  assert (Hon : In (nextHead h (direction s)) (snake s)).
  { destruct Hhit as [Hon|Hlast]; [exact Hon|].
    rewrite Hlast, Hs. apply In_last_cons. }
  rewrite (gameLoop_playing fuel rnd s Hp). unfold step.
  destruct (snake s) as [|h0 t0] eqn:Hs0; [discriminate|].
  injection Hs as -> ->. cbv zeta.
  apply hitsWall_false_iff in Hin. rewrite Hin.
  apply occupied_true_iff in Hon. rewrite Hon. fields.
  repeat split; try reflexivity. exact Hs0.
Qed.

Lemma self_collision_game_over_witness :
  exists s' : State,
    gameLoop 0 (fun _ => 0)
      (mkState playing
         [mkPosition 5 5; mkPosition 5 6; mkPosition 6 6; mkPosition 6 5]
         INITIAL_FOOD (mkPosition 1 0) 30) = Some s' /\
    gameState s' = gameOver /\
    snake s' = [mkPosition 5 5; mkPosition 5 6; mkPosition 6 6; mkPosition 6 5] /\
    food s' = INITIAL_FOOD /\
    score s' = 30.
Proof.
  apply (self_collision_game_over 0 (fun _ => 0)
           (mkState playing
              [mkPosition 5 5; mkPosition 5 6; mkPosition 6 6; mkPosition 6 5]
              INITIAL_FOOD (mkPosition 1 0) 30)
           (mkPosition 5 5) [mkPosition 5 6; mkPosition 6 6; mkPosition 6 5]).
  - reflexivity.
  - reflexivity.
  - unfold inGrid, GRID_SIZE. simpl. lia.
  - right. reflexivity.
Defined.

(** * Eating *)

(** C4.  With snake [(10,10)], food (11,10) and direction (1,0), a tick that
    returns yields the snake [(11,10); (10,10)] (one segment longer), adds
    the reward 10 to the score (giving 10 from 0) and relocates the food: the
    new food is the first candidate of the random stream that is neither
    (11,10) nor (10,10), a cell of the grid when the draws lie in
    [0, GRID_SIZE); and the tick does return as soon as the stream proposes
    such a cell.  The same holds for every snake in phase [playing] whose new
    head is inside the grid, on no segment and on the food: the head is put
    in front, no segment is dropped, the score rises by 10 and the new food
    is the first candidate off the grown snake. *)
Theorem eating_step_example (rnd : Random) (sc : Z) :
  let s := mkState playing [mkPosition 10 10] (mkPosition 11 10) (mkPosition 1 0) sc in
  (forall (fuel : nat) (s' : State),
     gameLoop fuel rnd s = Some s' ->
     snake s' = [mkPosition 11 10; mkPosition 10 10] /\
     List.length (snake s') = S (List.length (snake s)) /\
     score s' = sc + 10 /\
     (sc = 0 -> score s' = 10) /\
     food s' <> mkPosition 11 10 /\
     food s' <> mkPosition 10 10 /\
     gameState s' = playing /\
     direction s' = mkPosition 1 0 /\
     (exists n : nat,
        food s' = proposal rnd n /\
        forall m : nat, (m < n)%nat ->
          In (proposal rnd m) [mkPosition 11 10; mkPosition 10 10]) /\
     (valid_random rnd -> inGrid (food s'))) /\
  ((exists n : nat, ~ In (proposal rnd n) [mkPosition 11 10; mkPosition 10 10]) ->
   exists (fuel : nat) (s' : State), gameLoop fuel rnd s = Some s') /\
  (forall (g : State) (h : Position) (t : list Position),
     gameState g = playing ->
     snake g = h :: t ->
     inGrid (nextHead h (direction g)) ->
     ~ In (nextHead h (direction g)) (snake g) ->
     nextHead h (direction g) = food g ->
     (forall (fuel : nat) (g' : State),
        gameLoop fuel rnd g = Some g' ->
        snake g' = food g :: snake g /\
        List.length (snake g') = S (List.length (snake g)) /\
        score g' = score g + 10 /\
        gameState g' = playing /\
        direction g' = direction g /\
        ~ In (food g') (snake g') /\
        (exists n : nat,
           food g' = proposal rnd n /\
           forall m : nat, (m < n)%nat -> In (proposal rnd m) (food g :: snake g)) /\
        (valid_random rnd -> inGrid (food g'))) /\
     ((exists n : nat, ~ In (proposal rnd n) (food g :: snake g)) ->
      exists (fuel : nat) (g' : State), gameLoop fuel rnd g = Some g')).
Proof.
  intros s.
  assert (Hgeneral :
    forall (g : State) (h : Position) (t : list Position),
      gameState g = playing ->
      snake g = h :: t ->
      inGrid (nextHead h (direction g)) ->
      ~ In (nextHead h (direction g)) (snake g) ->
      nextHead h (direction g) = food g ->
      (forall (fuel : nat) (g' : State),
         gameLoop fuel rnd g = Some g' ->
         snake g' = food g :: snake g /\
         List.length (snake g') = S (List.length (snake g)) /\
         score g' = score g + 10 /\
         gameState g' = playing /\
         direction g' = direction g /\
         ~ In (food g') (snake g') /\
         (exists n : nat,
            food g' = proposal rnd n /\
            forall m : nat, (m < n)%nat -> In (proposal rnd m) (food g :: snake g)) /\
         (valid_random rnd -> inGrid (food g'))) /\
      ((exists n : nat, ~ In (proposal rnd n) (food g :: snake g)) ->
       exists (fuel : nat) (g' : State), gameLoop fuel rnd g = Some g')).
  { intros g h t Hp Hs Hin Hfree Heat.
    assert (Hrun : forall fuel,
               gameLoop fuel rnd g =
               match generateFood fuel rnd (food g :: snake g) with
               | Some f => Some (setSnake (food g :: snake g)
                                   (setFood f (setScore (score g + 10) g)))
               | None => None
               end).
    { intros fuel. rewrite (gameLoop_playing fuel rnd g Hp). unfold step.
      rewrite Hs in *. cbv zeta. rewrite Heat.
      rewrite Heat in Hin, Hfree.
      apply hitsWall_false_iff in Hin. rewrite Hin.
      apply occupied_false_iff in Hfree. rewrite Hfree.
      now rewrite !Z.eqb_refl. }
    split.
    - intros fuel g'. rewrite Hrun.
      destruct (generateFood fuel rnd (food g :: snake g)) as [f|] eqn:Hgen;
        [|discriminate].
      intros [= <-]. fields.
      unfold generateFood in Hgen.
      destruct (generateFood_from_sound _ _ _ _ _ Hgen) as [n [_ [[_ [Hocc Hbusy]] ->]]].
      split; [reflexivity|]. split; [reflexivity|]. split; [reflexivity|].
      split; [exact Hp|]. split; [reflexivity|].
      split; [now apply occupied_false_iff|]. split.
      + exists n. split; [reflexivity|].
        intros m Hm. apply occupied_true_iff. apply Hbusy. lia.
      + intros Hv. split; apply Hv.
    - intros [n Hn]. apply occupied_false_iff in Hn.
      destruct (firstFree_exists rnd _ n Hn) as [k [_ Hfirst]].
      exists (S k). rewrite Hrun. unfold generateFood.
      rewrite (generateFood_from_complete rnd _ (S k) 0 k Hfirst) by lia.
      eexists. reflexivity. }
  assert (Hin0 : inGrid (nextHead (mkPosition 10 10) (direction s)))
    by (unfold inGrid, GRID_SIZE; simpl; lia).
  assert (Hfree0 : ~ In (nextHead (mkPosition 10 10) (direction s)) (snake s))
    by (simpl; intros [E|[]]; discriminate).
  destruct (Hgeneral s (mkPosition 10 10) [] eq_refl eq_refl Hin0 Hfree0 eq_refl)
    as [Hsound Hruns].
  split; [|split; [exact Hruns|exact Hgeneral]].
  intros fuel s' Hrun.
  destruct (Hsound fuel s' Hrun) as [Hsn [Hlen [Hsc [Hg [Hd [Hoff [Hfirst Hgrid]]]]]]].
  split; [exact Hsn|]. split; [exact Hlen|]. split; [exact Hsc|].
  split; [intros ->; exact Hsc|].
  rewrite Hsn in Hoff.
  split; [intros E; apply Hoff; rewrite E; now left|].
  split; [intros E; apply Hoff; rewrite E; right; now left|].
  split; [exact Hg|]. split; [exact Hd|]. split; [exact Hfirst|exact Hgrid].
Qed.

Lemma eating_step_example_witness :
  let s := mkState playing [mkPosition 10 10] (mkPosition 11 10) (mkPosition 1 0) 0 in
  let g := mkState playing [mkPosition 5 5; mkPosition 5 6; mkPosition 5 7]
                   (mkPosition 6 5) (mkPosition 1 0) 20 in
  (exists (fuel : nat) (s' : State), gameLoop fuel (fun _ => 3) s = Some s') /\
  snake (mkState playing [mkPosition 11 10; mkPosition 10 10]
                 (mkPosition 3 3) (mkPosition 1 0) 10)
    = [mkPosition 11 10; mkPosition 10 10] /\
  inGrid (mkPosition 3 3) /\
  snake (mkState playing [mkPosition 6 5; mkPosition 5 5; mkPosition 5 6; mkPosition 5 7]
                 (mkPosition 3 3) (mkPosition 1 0) 30)
    = mkPosition 6 5 :: snake g.
Proof.
  intros s g.
  destruct (eating_step_example (fun _ => 3) 0) as [Hsound [Hruns Hgeneral]].
  split; [|split; [|split]].
  - apply Hruns. exists 0%nat. simpl. intros [E|[E|[]]]; discriminate.
  - exact (proj1 (Hsound 1%nat _ eq_refl)).
  - destruct (Hsound 1%nat
                (mkState playing [mkPosition 11 10; mkPosition 10 10]
                         (mkPosition 3 3) (mkPosition 1 0) 10) eq_refl)
      as [_ [_ [_ [_ [_ [_ [_ [_ [_ Hgrid]]]]]]]]].
    apply Hgrid. intros n. unfold GRID_SIZE. lia.
  - assert (Hin : inGrid (nextHead (mkPosition 5 5) (direction g)))
      by (unfold inGrid, GRID_SIZE; simpl; lia).
    assert (Hfree : ~ In (nextHead (mkPosition 5 5) (direction g)) (snake g))
      by (simpl; intros [E|[E|[E|[]]]]; discriminate).
    destruct (Hgeneral g (mkPosition 5 5) [mkPosition 5 6; mkPosition 5 7]
                eq_refl eq_refl Hin Hfree eq_refl) as [Hgsound _].
    exact (proj1 (Hgsound 1%nat
                    (mkState playing
                       [mkPosition 6 5; mkPosition 5 5; mkPosition 5 6; mkPosition 5 7]
                       (mkPosition 3 3) (mkPosition 1 0) 30) eq_refl)).
Defined.

(** * Food placement *)

(** C5.  A position returned by [generateFood] lies on no segment of the body
    it was given.  A tick either leaves the food where it was, or has grown
    the snake by the new head and taken the new food from [generateFood] on
    the grown snake, off every one of its segments.  Hence in every reachable
    state the food lies on no segment of the snake. *)
Theorem food_never_on_snake (fuel : nat) (rnd : Random) :
  (forall (body : list Position) (p : Position),
     generateFood fuel rnd body = Some p -> ~ In p body) /\
  (forall s s' : State,
     gameLoop fuel rnd s = Some s' ->
     food s' = food s \/
     (snake s' = food s :: snake s /\
      generateFood fuel rnd (snake s') = Some (food s') /\
      ~ In (food s') (snake s'))) /\
  (forall s : State, reachable s -> ~ In (food s) (snake s)).
Proof.
  assert (Hgen : forall body p, generateFood fuel rnd body = Some p -> ~ In p body).
  { intros body p Hrun. unfold generateFood in Hrun.
    destruct (generateFood_from_sound _ _ _ _ _ Hrun) as [n [_ [[_ [Hocc _]] ->]]].
    now apply occupied_false_iff. }
  split; [exact Hgen|]. split.
  - intros s s' Hrun.
    destruct (GameState_eq_playing (gameState s)) as [Hp|Hp].
    + rewrite (gameLoop_playing fuel rnd s Hp) in Hrun.
      destruct (snake s) as [|h t] eqn:Hs.
      * unfold step in Hrun. rewrite Hs in Hrun. injection Hrun as <-. now left.
      * destruct (step_cases fuel rnd s s' h t Hs Hrun) as
          [[-> _]|[[-> _]|[f [Hf [-> [_ [_ Heat]]]]]]]; fields.
        -- now left.
        -- now left.
        -- right. rewrite Hs in *. rewrite <- Heat.
           split; [reflexivity|]. split; [exact Hf|]. exact (Hgen _ _ Hf).
    + rewrite (gameLoop_idle fuel rnd s Hp) in Hrun. injection Hrun as <-. now left.
  - intros s Hr. apply (reachable_stateInv s Hr).
Qed.

Lemma food_never_on_snake_witness :
  ~ In (mkPosition 3 3) [mkPosition 11 10; mkPosition 10 10] /\
  (mkPosition 3 3 = mkPosition 11 10 \/
   [mkPosition 11 10; mkPosition 10 10] = [mkPosition 11 10; mkPosition 10 10] /\
   generateFood 1 (fun _ => 3) [mkPosition 11 10; mkPosition 10 10]
     = Some (mkPosition 3 3) /\
   ~ In (mkPosition 3 3) [mkPosition 11 10; mkPosition 10 10]) /\
  ~ In (food (startGame initialState)) (snake (startGame initialState)).
Proof.
  destruct (food_never_on_snake 1 (fun _ => 3)) as [Hgen [Htick Hreach]].
  split; [|split].
  - apply Hgen. reflexivity.
  - apply (Htick
             (mkState playing [mkPosition 10 10] (mkPosition 11 10) (mkPosition 1 0) 0)
             (mkState playing [mkPosition 11 10; mkPosition 10 10]
                      (mkPosition 3 3) (mkPosition 1 0) 10)).
    reflexivity.
  - apply Hreach.
    apply (reachable_step initialState _ StartClick); [apply reachable_init|reflexivity].
Defined.

(** * Keyboard input *)

(** Closes a goal of a [key_cases] split in which the tests passed by the
    key contradict each other or the current direction. *)
Ltac key_absurd :=
  repeat match goal with
         | H : (_ =? _)%string = true |- _ => apply String.eqb_eq in H; subst
         | H : (_ =? _)%Z = true |- _ => apply Z.eqb_eq in H
         | H : Some _ = Some _ |- _ => injection H as <-
         end;
  simpl in *; try discriminate; try congruence; try lia.

(** C6.  For a current direction among the four unit vectors: a movement key
    whose vector lies on the axis of the current direction leaves the whole
    state, hence the direction, as it was (with direction (1,0): the keys for
    (-1,0) and for (1,0)); and no key event sets the direction to the reverse
    of the current one. *)
Theorem direction_rejection (s : State) :
  isDirection (direction s) ->
  (forall (key : string) (v : Position),
     keyVector key = Some v -> sameAxis v (direction s) ->
     handleKeyPress key s = s) /\
  (direction s = mkPosition 1 0 ->
   forall key : string,
     keyVector key = Some (mkPosition (-1) 0) \/ keyVector key = Some (mkPosition 1 0) ->
     direction (handleKeyPress key s) = mkPosition 1 0) /\
  (forall key : string, direction (handleKeyPress key s) <> reverse (direction s)).
Proof.
  intros Hd.
  assert (Hrej : forall key v, keyVector key = Some v -> sameAxis v (direction s) ->
                               handleKeyPress key s = s).
  { intros key v Hv Hax. unfold sameAxis in Hax.
    key_cases s; try reflexivity; try discriminate;
      destruct Hd as [E|[E|[E|E]]]; rewrite E in *; key_absurd. }
  split; [exact Hrej|]. split.
  - intros E key Hv.
    assert (Hsame : handleKeyPress key s = s).
    { destruct Hv as [Hv|Hv]; apply (Hrej key _ Hv); unfold sameAxis; rewrite E; reflexivity. }
    rewrite Hsame. exact E.
  - intros key. unfold reverse.
    key_cases s; fields;
      destruct Hd as [E|[E|[E|E]]]; rewrite E in *; key_absurd.
Qed.

Lemma direction_rejection_witness :
  handleKeyPress "ArrowLeft"
    (mkState playing [mkPosition 10 10] INITIAL_FOOD (mkPosition 1 0) 0)
  = mkState playing [mkPosition 10 10] INITIAL_FOOD (mkPosition 1 0) 0 /\
  direction (handleKeyPress "d"
    (mkState playing [mkPosition 10 10] INITIAL_FOOD (mkPosition 1 0) 0))
  = mkPosition 1 0.
Proof.
  destruct (direction_rejection
              (mkState playing [mkPosition 10 10] INITIAL_FOOD (mkPosition 1 0) 0))
    as [Hrej [Hex _]].
  - right. right. right. reflexivity.
  - split.
    + apply (Hrej "ArrowLeft"%string (mkPosition (-1) 0)); reflexivity.
    + apply Hex; [reflexivity|]. right. reflexivity.
Defined.



(** * Restart *)

(** C8.  [startGame], from any state (so from any [gameOver] state, where the
    button is shown), gives snake [(10,10)], food (15,15), direction (0,-1),
    score 0 and phase [playing]; applied to its own result it gives that
    state again. *)
Theorem restart_resets (s : State) :
  startGame s =
    mkState playing [mkPosition 10 10] (mkPosition 15 15) (mkPosition 0 (-1)) 0 /\
  startGame s = mkState playing INITIAL_SNAKE INITIAL_FOOD INITIAL_DIRECTION 0 /\
  startGame (startGame s) = startGame s /\
  (gameState s = gameOver -> dispatch StartClick s = Some (startGame s)).
Proof.
  repeat split.
  intros Hg. unfold dispatch, startVisible. rewrite Hg. reflexivity.
Qed.

Lemma restart_resets_witness :
  dispatch StartClick
    (mkState gameOver [mkPosition 10 0; mkPosition 10 1] (mkPosition 3 3)
             (mkPosition 0 (-1)) 40)
  = Some (mkState playing [mkPosition 10 10] (mkPosition 15 15) (mkPosition 0 (-1)) 0).
Proof.
  apply (proj2 (proj2 (proj2 (restart_resets
           (mkState gameOver [mkPosition 10 0; mkPosition 10 1] (mkPosition 3 3)
                    (mkPosition 0 (-1)) 40))))).
  reflexivity.
Defined.

(** C10.  A key event changes nothing unless the phase is [playing], or the
    phase is [paused] and the key is Space: movement keys in [paused] and any
    key (Space included) in [menu] or [gameOver] leave the state as it was.
    From [menu] and [gameOver] the only event that changes the phase is the
    click on the start button. *)
Theorem keyboard_noop_frame (s : State) :
  (forall key : string,
     gameState s <> playing ->
     ~ (gameState s = paused /\ key = " "%string) ->
     handleKeyPress key s = s) /\
  (gameState s = paused ->
   forall (key : string) (v : Position),
     keyVector key = Some v -> handleKeyPress key s = s) /\
  (gameState s = menu \/ gameState s = gameOver ->
   handleKeyPress " " s = s /\
   (forall key : string, handleKeyPress key s = s) /\
   (forall (e : Event) (s' : State),
      dispatch e s = Some s' -> gameState s' <> gameState s -> e = StartClick)).
Proof.
  split; [|split].
  - intros key. apply handleKeyPress_idle.
  - intros Hp key v Hv. apply handleKeyPress_idle.
    + rewrite Hp. discriminate.
    + intros [_ ->]. discriminate.
  - intros Hphase.
    assert (Hplay : gameState s <> playing) by (destruct Hphase as [E|E]; rewrite E; discriminate).
    assert (Hpause : gameState s <> paused) by (destruct Hphase as [E|E]; rewrite E; discriminate).
    assert (Hkey : forall key, handleKeyPress key s = s).
    { intros key. apply handleKeyPress_idle; [exact Hplay|]. intros [E _]. contradiction. }
    split; [apply Hkey|]. split; [exact Hkey|].
    intros e s' Hrun Hchg. destruct e as [fuel rnd|key|]; [| |reflexivity]; exfalso.
    + simpl in Hrun. rewrite (gameLoop_idle fuel rnd s Hplay) in Hrun.
      injection Hrun as <-. now apply Hchg.
    + simpl in Hrun. rewrite Hkey in Hrun. injection Hrun as <-. now apply Hchg.
Qed.

Lemma keyboard_noop_frame_witness :
  handleKeyPress "ArrowLeft" (setGameState paused (startGame initialState))
    = setGameState paused (startGame initialState) /\
  handleKeyPress " " (setGameState gameOver (startGame initialState))
    = setGameState gameOver (startGame initialState) /\
  handleKeyPress " " initialState = initialState.
Proof.
  split; [|split].
  - apply (proj1 (proj2 (keyboard_noop_frame
                           (setGameState paused (startGame initialState))))
             eq_refl "ArrowLeft"%string (mkPosition (-1) 0)).
    reflexivity.
  - apply (proj2 (proj2 (keyboard_noop_frame
                           (setGameState gameOver (startGame initialState))))).
    right. reflexivity.
  - apply (proj1 (keyboard_noop_frame initialState) " "%string).
    + discriminate.
    + intros [E _]. discriminate.
Defined.

(** * Termination of food placement *)

Lemma allCells_complete (p : Position) : inGrid p -> In p allCells.
Proof.
  unfold inGrid, allCells, GRID_SIZE. intros [Hx Hy].
  apply in_flat_map. exists (Z.to_nat (y p)). split; [apply in_seq; lia|].
  apply in_map_iff. exists (Z.to_nat (x p)). split; [|apply in_seq; lia].
  rewrite !Z2Nat.id by lia. destruct p; reflexivity.
Qed.

Lemma proposal_stutter (bound : nat) (q p : Position) (i : nat) :
  proposal (stutter bound q p) i = if (i <? bound)%nat then q else p.
Proof.
  unfold proposal, stutter.
  assert (He : Nat.even (2 * i) = true) by (rewrite Nat.even_mul; reflexivity).
  assert (Ho : Nat.even (2 * i + 1) = false) by (rewrite Nat.even_add, He; reflexivity).
  rewrite He, Ho.
  destruct (Nat.ltb_spec i bound) as [Hlt|Hge].
  - destruct (Nat.ltb_spec (2 * i) (2 * bound)); [|lia].
    destruct (Nat.ltb_spec (2 * i + 1) (2 * bound)); [|lia].
    destruct q; reflexivity.
  - destruct (Nat.ltb_spec (2 * i) (2 * bound)); [lia|].
    destruct (Nat.ltb_spec (2 * i + 1) (2 * bound)); [lia|].
    destruct p; reflexivity.
Qed.

Lemma valid_random_stutter (bound : nat) (q p : Position) :
  inGrid q -> inGrid p -> valid_random (stutter bound q p).
Proof.
  intros [Hqx Hqy] [Hpx Hpy] k. unfold stutter.
  destruct (k <? 2 * bound)%nat, (Nat.even k); assumption.
Qed.

(** C9.  The loop of [generateFood] has no bound.  On a body that covers all
    [GRID_SIZE * GRID_SIZE] cells it returns for no amount of fuel.  On any
    body it returns [p] for some amount of fuel exactly when [p] is the first
    candidate of the random stream that is not on the body; so it returns at
    all exactly when the stream proposes a free cell at some point.  And for
    every bound there is a stream on which it runs longer than the bound
    before it returns, as soon as the body holds one cell of the grid and
    misses another. *)
Theorem generateFood_termination (rnd : Random) (body : list Position) :
  (valid_random rnd -> (forall p : Position, inGrid p -> In p body) ->
   forall fuel : nat, generateFood fuel rnd body = None) /\
  (forall p : Position,
     (exists fuel : nat, generateFood fuel rnd body = Some p) <->
     (exists n : nat,
        p = proposal rnd n /\ ~ In p body /\
        forall m : nat, (m < n)%nat -> In (proposal rnd m) body)) /\
  ((exists (fuel : nat) (p : Position), generateFood fuel rnd body = Some p) <->
   (exists n : nat, ~ In (proposal rnd n) body)) /\
  (forall (q p : Position) (bound : nat),
     inGrid q -> In q body -> inGrid p -> ~ In p body ->
     exists rnd' : Random,
       valid_random rnd' /\
       generateFood bound rnd' body = None /\
       generateFood (S bound) rnd' body = Some p).
Proof.
  assert (Hiff : forall p : Position,
     (exists fuel : nat, generateFood fuel rnd body = Some p) <->
     (exists n : nat,
        p = proposal rnd n /\ ~ In p body /\
        forall m : nat, (m < n)%nat -> In (proposal rnd m) body)).
  { intros p. unfold generateFood. split.
    - intros [fuel Hrun].
      destruct (generateFood_from_sound _ _ _ _ _ Hrun) as [n [_ [[_ [Hfree Hbusy]] ->]]].
      exists n. split; [reflexivity|]. split; [now apply occupied_false_iff|].
      intros m Hm. apply occupied_true_iff. apply Hbusy. lia.
    - intros [n [-> [Hfree Hbusy]]]. exists (S n).
      apply generateFood_from_complete; [|lia].
      split; [lia|]. split; [now apply occupied_false_iff|].
      intros m Hm. apply occupied_true_iff. apply Hbusy. lia. }
  split; [|split; [exact Hiff|split]].
  - intros Hvalid Hfull fuel. unfold generateFood.
    apply generateFood_from_all_busy. intros m.
    apply occupied_true_iff, Hfull. split; apply Hvalid.
  - split.
    + intros [fuel [p Hrun]].
      destruct (proj1 (Hiff p) (ex_intro _ fuel Hrun)) as [n [-> [Hfree _]]].
      now exists n.
    + intros [n Hfree]. apply occupied_false_iff in Hfree.
      destruct (firstFree_exists rnd body n Hfree) as [k [_ Hfirst]].
      exists (S k), (proposal rnd k). unfold generateFood.
      apply generateFood_from_complete; [exact Hfirst|lia].
  - intros q p bound Hq Hqin Hp Hpfree. exists (stutter bound q p).
    split; [now apply valid_random_stutter|]. unfold generateFood. split.
    + apply generateFood_from_busy_prefix. intros m Hm.
      rewrite proposal_stutter. destruct (Nat.ltb_spec m bound); [|lia].
      now apply occupied_true_iff.
    + replace (Some p) with (Some (proposal (stutter bound q p) bound)).
      * apply generateFood_from_complete; [|lia].
        split; [lia|]. split.
        -- rewrite proposal_stutter, Nat.ltb_irrefl. now apply occupied_false_iff.
        -- intros m Hm. rewrite proposal_stutter.
           destruct (Nat.ltb_spec m bound); [|lia]. now apply occupied_true_iff.
      * now rewrite proposal_stutter, Nat.ltb_irrefl.
Qed.

Lemma generateFood_termination_witness :
  generateFood 1000 (fun _ => 7) allCells = None /\
  (exists rnd' : Random,
     valid_random rnd' /\
     generateFood 50 rnd' [mkPosition 10 10] = None /\
     generateFood 51 rnd' [mkPosition 10 10] = Some (mkPosition 3 4)).
Proof.
  split.
  - apply (proj1 (generateFood_termination (fun _ => 7) allCells)).
    + intros n. unfold GRID_SIZE. lia.
    + exact allCells_complete.
  - apply (proj2 (proj2 (proj2 (generateFood_termination (fun _ => 0) [mkPosition 10 10])))
             (mkPosition 10 10) (mkPosition 3 4) 50%nat).
    + unfold inGrid, GRID_SIZE. simpl. lia.
    + now left.
    + unfold inGrid, GRID_SIZE. simpl. lia.
    + intros [E|[]]. discriminate.
Defined.


(** * Further facts about lists of cells *)

Lemma Forall_removelast {A : Type} (P : A -> Prop) (l : list A) :
  Forall P l -> Forall P (removelast l).
Proof.
  rewrite !Forall_forall. intros Hall a Ha. apply Hall. now apply In_removelast.
Qed.

Lemma contiguous_removelast (a : Position) (l : list Position) :
  contiguous (a :: l) -> contiguous (removelast (a :: l)).
Proof.
  revert a. induction l as [|b l IH]; intros a; [trivial|].
  intros [Hab Hc]. specialize (IH b Hc).
  change (removelast (a :: b :: l)) with (a :: removelast (b :: l)).
  destruct l as [|c l]; [exact I|].
  change (removelast (b :: c :: l)) with (b :: removelast (c :: l)) in *.
  split; assumption.
Qed.

Lemma adjacent_nextHead (h d : Position) :
  isDirection d -> adjacent (nextHead h d) h.
Proof.
  intros [E|[E|[E|E]]]; subst d; unfold adjacent, nextHead; simpl; lia.
Qed.

Lemma distinctb_NoDup (b : list Position) : distinctb b = true -> NoDup b.
Proof.
  induction b as [|p t IH]; simpl; [constructor|].
  intros Hd. apply andb_true_iff in Hd as [Hp Ht].
  constructor; [|now apply IH].
  apply occupied_false_iff. now destruct (occupied t p).
Qed.

Lemma allCells_sound (p : Position) : In p allCells -> inGrid p.
Proof.
  unfold inGrid, allCells, GRID_SIZE. intros Hin.
  apply in_flat_map in Hin as [j [Hj Hin]].
  apply in_map_iff in Hin as [i [<- Hi]].
  apply in_seq in Hj, Hi. simpl. lia.
Qed.

Lemma allCells_NoDup : NoDup allCells.
Proof. apply distinctb_NoDup. vm_compute. reflexivity. Qed.

Lemma allCells_length : List.length allCells = 400%nat.
Proof. vm_compute. reflexivity. Qed.

(** A duplicate-free list of grid cells has at most 400 elements. *)
Lemma grid_capacity (b : list Position) :
  NoDup b -> Forall inGrid b -> (List.length b <= 400)%nat.
Proof.
  intros Hnd Hin. rewrite <- allCells_length.
  apply NoDup_incl_length; [exact Hnd|].
  intros p Hp. apply allCells_complete. rewrite Forall_forall in Hin. now apply Hin.
Qed.

(** * Further invariants of the reachable states *)

Lemma startGame_gameInv (s : State) : gameInv (startGame s).
Proof.
  unfold gameInv. simpl. repeat split.
  constructor; [|constructor]. unfold inGrid, GRID_SIZE. simpl. lia.
Qed.

Lemma gameLoop_gameInv (fuel : nat) (rnd : Random) (s s' : State) :
  stateInv s -> gameInv s -> gameLoop fuel rnd s = Some s' -> gameInv s'.
Proof.
  intros [[Hlen _] [Hdir _]] [Hgrid [Hcont Hscore]] Hrun.
  destruct (GameState_eq_playing (gameState s)) as [Hp|Hp].
  - rewrite (gameLoop_playing fuel rnd s Hp) in Hrun.
    destruct (snake s) as [|h t] eqn:Hs; [simpl in Hlen; lia|].
    pose proof (adjacent_nextHead h (direction s) Hdir) as Hadj.
    destruct (step_cases fuel rnd s s' h t Hs Hrun) as
      [[-> _]|[[-> [Hin _]]|[f [_ [-> [Hin _]]]]]]; unfold gameInv; fields;
      rewrite ?Hs in *.
    + repeat split; assumption.
    + split; [|split].
      * apply Forall_removelast. now constructor.
      * apply contiguous_removelast. split; assumption.
      * rewrite length_removelast_cons. exact Hscore.
    + split; [|split].
      * now constructor.
      * split; assumption.
      * rewrite Hscore. cbn [List.length]. lia.
  - rewrite (gameLoop_idle fuel rnd s Hp) in Hrun. injection Hrun as <-.
    repeat split; assumption.
Qed.

Lemma dispatch_gameInv (e : Event) (s s' : State) :
  stateInv s -> gameInv s -> dispatch e s = Some s' -> gameInv s'.
Proof.
  intros Hst Hinv. destruct e as [fuel rnd|key|]; simpl.
  - now apply gameLoop_gameInv.
  - intros [= <-]. unfold gameInv.
    rewrite handleKeyPress_snake, handleKeyPress_score. exact Hinv.
  - destruct (startVisible s); [|discriminate].
    intros [= <-]. apply startGame_gameInv.
Qed.

Lemma reachable_gameInv (s : State) : reachable s -> gameInv s.
Proof.
  induction 1 as [|s s' e Hr IH Hstep].
  - apply (startGame_gameInv initialState).
  - exact (dispatch_gameInv e s s' (reachable_stateInv s Hr) IH Hstep).
Qed.

Lemma reachable_run (es : list Event) (s s' : State) :
  reachable s -> run es s = Some s' -> reachable s'.
Proof.
  revert s. induction es as [|e es IH]; intros s Hr; simpl.
  - now intros [= <-].
  - destruct (dispatch e s) as [s1|] eqn:Hd; [|discriminate].
    apply IH. exact (reachable_step s s1 e Hr Hd).
Qed.

(** A state reached by playing until the first food is eaten. *)
Lemma reachable_grown :
  reachable (mkState playing [mkPosition 15 15; mkPosition 15 14]
                     (mkPosition 3 3) (mkPosition 0 1) 10).
Proof.
  apply (reachable_run
           [StartClick; KeyDown "ArrowRight";
            Tick 0 (fun _ => 0); Tick 0 (fun _ => 0); Tick 0 (fun _ => 0);
            Tick 0 (fun _ => 0); Tick 0 (fun _ => 0);
            KeyDown "s";
            Tick 0 (fun _ => 0); Tick 0 (fun _ => 0); Tick 0 (fun _ => 0);
            Tick 0 (fun _ => 0); Tick 1 (fun _ => 3)]
           initialState _ reachable_init).
  reflexivity.
Qed.

(** * What a tick does *)

(** X1.  In phase [playing], a new head that is inside the grid, on no
    segment and not on the food makes the tick return, whatever the fuel and
    the random stream: the new head is put in front, the last segment is
    dropped, the length stays, and phase, food, direction and score are as
    they were. *)
Theorem plain_move
    (fuel : nat) (rnd : Random) (s : State) (h : Position) (t : list Position) :
  gameState s = playing ->
  snake s = h :: t ->
  inGrid (nextHead h (direction s)) ->
  ~ In (nextHead h (direction s)) (snake s) ->
  nextHead h (direction s) <> food s ->
  gameLoop fuel rnd s
    = Some (setSnake (nextHead h (direction s) :: removelast (h :: t)) s) /\
  List.length (nextHead h (direction s) :: removelast (h :: t))
    = List.length (snake s).
Proof.
  intros Hp Hs Hin Hfree Hne. split.
  - rewrite (gameLoop_playing fuel rnd s Hp). unfold step. rewrite Hs in *. cbv zeta.
    apply hitsWall_false_iff in Hin. rewrite Hin.
    apply occupied_false_iff in Hfree. rewrite Hfree.
    destruct ((x (nextHead h (direction s)) =? x (food s)) &&
              (y (nextHead h (direction s)) =? y (food s))) eqn:Heat.
    + apply eats_iff in Heat. contradiction.
    + reflexivity.
  - rewrite Hs. cbn [List.length]. now rewrite length_removelast_cons.
Qed.

Lemma plain_move_witness :
  gameLoop 0 (fun _ => 0)
    (mkState playing [mkPosition 5 5; mkPosition 5 6; mkPosition 5 7]
             INITIAL_FOOD (mkPosition 1 0) 20)
  = Some (mkState playing [mkPosition 6 5; mkPosition 5 5; mkPosition 5 6]
                  INITIAL_FOOD (mkPosition 1 0) 20).
Proof.
  apply (plain_move 0 (fun _ => 0)
           (mkState playing [mkPosition 5 5; mkPosition 5 6; mkPosition 5 7]
                    INITIAL_FOOD (mkPosition 1 0) 20)
           (mkPosition 5 5) [mkPosition 5 6; mkPosition 5 7]).
  - reflexivity.
  - reflexivity.
  - unfold inGrid, GRID_SIZE. simpl. lia.
  - simpl. intros [E|[E|[E|[]]]]; discriminate.
  - discriminate.
Defined.

(** X2.  A tick that returns never changes the direction.  Either score and
    length are as they were, or the score went up by 10 and the snake grew by
    one segment.  The only change of phase it makes is from [playing] to
    [gameOver], and then snake, food and score are as they were. *)
Theorem tick_frame (fuel : nat) (rnd : Random) (s s' : State) :
  gameLoop fuel rnd s = Some s' ->
  direction s' = direction s /\
  ((score s' = score s /\ List.length (snake s') = List.length (snake s)) \/
   (score s' = score s + 10 /\ List.length (snake s') = S (List.length (snake s)))) /\
  (gameState s' = gameState s \/
   (gameState s = playing /\ gameState s' = gameOver /\
    snake s' = snake s /\ food s' = food s /\ score s' = score s)).
Proof.
  intros Hrun. split; [exact (gameLoop_direction fuel rnd s s' Hrun)|].
  destruct (GameState_eq_playing (gameState s)) as [Hp|Hp].
  - rewrite (gameLoop_playing fuel rnd s Hp) in Hrun.
    destruct (snake s) as [|h t] eqn:Hs.
    + unfold step in Hrun. rewrite Hs in Hrun. injection Hrun as <-.
      split; [left; now rewrite Hs|now left].
    + destruct (step_cases fuel rnd s s' h t Hs Hrun) as
        [[-> _]|[[-> _]|[f [_ [-> _]]]]]; fields; rewrite ?Hs.
      * split; [now left|]. right. repeat split; assumption || reflexivity.
      * split; [|now left]. left. split; [reflexivity|].
        now rewrite length_removelast_cons.
      * split; [|now left]. right. split; reflexivity.
  - rewrite (gameLoop_idle fuel rnd s Hp) in Hrun. injection Hrun as <-.
    split; [left|left]; auto.
Qed.

Lemma tick_frame_witness :
  direction (mkState gameOver [mkPosition 10 0] INITIAL_FOOD INITIAL_DIRECTION 0)
    = INITIAL_DIRECTION.
Proof.
  apply (proj1 (tick_frame 0 (fun _ => 0)
                  (mkState playing [mkPosition 10 0] INITIAL_FOOD INITIAL_DIRECTION 0)
                  _ eq_refl)).
Defined.

(** * More invariants *)

(** X3.  In every reachable state the score is ten times the number of
    segments beyond the first, hence never negative. *)
Theorem score_tracks_length (s : State) :
  reachable s ->
  score s = 10 * (Z.of_nat (List.length (snake s)) - 1) /\ 0 <= score s.
Proof.
  intros Hr.
  destruct (reachable_gameInv s Hr) as [_ [_ Hscore]].
  destruct (reachable_stateInv s Hr) as [[Hlen _] _].
  split; [exact Hscore|]. rewrite Hscore. lia.
Qed.

Lemma score_tracks_length_witness :
  score (mkState playing [mkPosition 15 15; mkPosition 15 14]
                 (mkPosition 3 3) (mkPosition 0 1) 10)
    = 10 * (Z.of_nat 2 - 1).
Proof. exact (proj1 (score_tracks_length _ reachable_grown)). Defined.

(** X4.  In every reachable state every segment of the snake lies inside the
    grid, so the snake has at most 400 segments and the score is at most
    3990. *)
Theorem snake_within_grid (s : State) :
  reachable s ->
  Forall inGrid (snake s) /\
  (List.length (snake s) <= 400)%nat /\
  score s <= 3990.
Proof.
  intros Hr.
  destruct (reachable_gameInv s Hr) as [Hgrid [_ Hscore]].
  destruct (reachable_stateInv s Hr) as [[_ Hnd] _].
  pose proof (grid_capacity (snake s) Hnd Hgrid) as Hcap.
  split; [exact Hgrid|]. split; [exact Hcap|]. rewrite Hscore. lia.
Qed.

Lemma snake_within_grid_witness :
  Forall inGrid [mkPosition 15 15; mkPosition 15 14].
Proof. exact (proj1 (snake_within_grid _ reachable_grown)). Defined.

(** X5.  In every reachable state each segment of the snake is a neighbour
    of the next one: the body is one connected path. *)
Theorem snake_contiguous (s : State) :
  reachable s -> contiguous (snake s).
Proof.
  intros Hr. apply (reachable_gameInv s Hr).
Qed.

Lemma snake_contiguous_witness :
  contiguous [mkPosition 15 15; mkPosition 15 14].
Proof. exact (snake_contiguous _ reachable_grown). Defined.

(** * More on the keyboard *)

Lemma keyVector_isDirection (key : string) (v : Position) :
  keyVector key = Some v -> isDirection v.
Proof.
  unfold keyVector, isDirection.
  repeat match goal with
         | |- context [if ?b then _ else _] => destruct b
         end; intros [= <-]; tauto.
Qed.

Lemma run_app (es es' : list Event) (s s1 : State) :
  run es s = Some s1 -> run (es ++ es') s = run es' s1.
Proof.
  revert s. induction es as [|e es IH]; intros s; simpl.
  - now intros [= <-].
  - destruct (dispatch e s) as [s2|]; [apply IH|discriminate].
Qed.

Lemma paused_inert (es : list Event) (s : State) :
  gameState s = paused -> Forall noSpaceNoStart es -> run es s = Some s.
Proof.
  intros Hp. induction 1 as [|e es He _ IH]; [reflexivity|].
  assert (Hd : dispatch e s = Some s).
  { destruct e as [fuel rnd|key|]; simpl in *.
    - apply gameLoop_idle. rewrite Hp. discriminate.
    - f_equal. apply handleKeyPress_idle; [rewrite Hp; discriminate|].
      intros [_ E]. contradiction.
    - contradiction. }
  simpl. rewrite Hd. exact IH.
Qed.

(** X6.  A key event never touches snake, food or score, in any phase.  It
    changes at most one of direction and phase, and the only changes of
    phase it makes are from [playing] to [paused] and back. *)
Theorem keyboard_frame (key : string) (s : State) :
  snake (handleKeyPress key s) = snake s /\
  food (handleKeyPress key s) = food s /\
  score (handleKeyPress key s) = score s /\
  (gameState (handleKeyPress key s) = gameState s \/
   direction (handleKeyPress key s) = direction s /\
   ((gameState s = playing /\ gameState (handleKeyPress key s) = paused) \/
    (gameState s = paused /\ gameState (handleKeyPress key s) = playing))).
Proof.
  split; [apply handleKeyPress_snake|].
  split; [apply handleKeyPress_food|].
  split; [apply handleKeyPress_score|].
  key_cases s; fields; tauto.
Qed.



(** X8.  The guard against reversal looks at the direction left by the last
    key event, not at the last move.  In phase [playing], for a snake of two
    or more segments whose second segment lies right behind the head, a key
    off the axis followed, before the next tick, by the key of the reverse
    direction sets the direction to the reverse; the next tick then runs the
    head into the second segment and ends the game. *)
Theorem double_key_reversal
    (k1 k2 : string) (v1 : Position) (s : State)
    (h n : Position) (t : list Position) (fuel : nat) (rnd : Random) :
  gameState s = playing ->
  isDirection (direction s) ->
  snake s = h :: n :: t ->
  nextHead n (direction s) = h ->
  inGrid n ->
  keyVector k1 = Some v1 ->
  ~ sameAxis v1 (direction s) ->
  keyVector k2 = Some (reverse (direction s)) ->
  handleKeyPress k2 (handleKeyPress k1 s) = setDirection (reverse (direction s)) s /\
  gameLoop fuel rnd (handleKeyPress k2 (handleKeyPress k1 s))
    = Some (setGameState gameOver (setDirection (reverse (direction s)) s)).
Proof.
  intros Hp Hd Hs Hneck Hn Hk1 Hax Hk2.
  pose proof (keyVector_isDirection k1 v1 Hk1) as Hv1.
  assert (Hkeys : handleKeyPress k2 (handleKeyPress k1 s)
                  = setDirection (reverse (direction s)) s).
  { rewrite (handleKeyPress_turn k1 s v1 Hp Hd Hk1 Hax).
    rewrite (handleKeyPress_turn k2 (setDirection v1 s) (reverse (direction s)));
      try assumption; try reflexivity.
    fields. unfold sameAxis, reverse in *.
    destruct Hd as [E|[E|[E|E]]]; rewrite E in *;
      destruct Hv1 as [F|[F|[F|F]]]; rewrite F in *; simpl in *; lia. }
  split; [exact Hkeys|]. rewrite Hkeys.
  assert (Hback : nextHead h (reverse (direction s)) = n).
  { rewrite <- Hneck. unfold nextHead, reverse. destruct n as [nx ny]. simpl.
    f_equal; lia. }
  unfold gameLoop, step. fields. rewrite Hp, Hs, Hback.
  apply hitsWall_false_iff in Hn. rewrite Hn.
  assert (Hocc : occupied (h :: n :: t) n = true).
  { apply occupied_true_iff. right. now left. }
  rewrite Hocc. reflexivity.
Qed.

Lemma double_key_reversal_witness :
  gameLoop 0 (fun _ => 0)
    (handleKeyPress "ArrowUp" (handleKeyPress "ArrowLeft"
       (mkState playing [mkPosition 15 15; mkPosition 15 14]
                (mkPosition 3 3) (mkPosition 0 1) 10)))
  = Some (mkState gameOver [mkPosition 15 15; mkPosition 15 14]
                  (mkPosition 3 3) (mkPosition 0 (-1)) 10).
Proof.
  apply (proj2 (double_key_reversal "ArrowLeft"%string "ArrowUp"%string (mkPosition (-1) 0)
           (mkState playing [mkPosition 15 15; mkPosition 15 14]
                    (mkPosition 3 3) (mkPosition 0 1) 10)
           (mkPosition 15 15) (mkPosition 15 14) [] 0%nat (fun _ => 0)
           eq_refl (or_intror (or_introl eq_refl)) eq_refl eq_refl
           ltac:(unfold inGrid, GRID_SIZE; simpl; lia)
           eq_refl
           ltac:(unfold sameAxis; simpl; lia)
           eq_refl)).
Defined.

(** X9.  Pausing and resuming gives back the very state that was paused:
    from phase [playing], Space, then any ticks and any keys other than
    Space, then Space again, end in the state before the first Space. *)
Theorem pause_resume_round_trip (es : list Event) (s : State) :
  gameState s = playing ->
  Forall noSpaceNoStart es ->
  run (KeyDown " " :: es ++ [KeyDown " "]) s = Some s.
Proof.
  intros Hp Hes.
  assert (Hpause : handleKeyPress " " s = setGameState paused s).
  { unfold handleKeyPress. rewrite Hp. reflexivity. }
  cbn [run dispatch]. rewrite Hpause.
  rewrite (run_app es [KeyDown " "] (setGameState paused s) (setGameState paused s)).
  - simpl. f_equal. destruct s as [g b f d n]. simpl in Hp. subst g. reflexivity.
  - apply paused_inert; [reflexivity|exact Hes].
Qed.

Lemma pause_resume_round_trip_witness :
  run [KeyDown " "; Tick 5 (fun _ => 0); KeyDown "ArrowLeft"; Tick 5 (fun _ => 0);
       KeyDown " "]
      (startGame initialState)
  = Some (startGame initialState).
Proof.
  apply (pause_resume_round_trip
           [Tick 5 (fun _ => 0); KeyDown "ArrowLeft"; Tick 5 (fun _ => 0)]
           (startGame initialState)).
  - reflexivity.
  - repeat constructor. discriminate.
Defined.

(** X10.  In the phases [menu] and [gameOver] no run of ticks and key events
    changes anything: snake, food, direction and score stay as they are
    until the start button is clicked. *)
Theorem terminal_phases_frozen (es : list Event) (s : State) :
  gameState s = menu \/ gameState s = gameOver ->
  Forall noStart es ->
  run es s = Some s.
Proof.
  intros Hphase.
  assert (Hplay : gameState s <> playing) by (destruct Hphase as [E|E]; rewrite E; discriminate).
  assert (Hpause : gameState s <> paused) by (destruct Hphase as [E|E]; rewrite E; discriminate).
  induction 1 as [|e es He _ IH]; [reflexivity|].
  assert (Hd : dispatch e s = Some s).
  { destruct e as [fuel rnd|key|]; simpl in *.
    - now apply gameLoop_idle.
    - f_equal. apply handleKeyPress_idle; [exact Hplay|]. intros [E _]. contradiction.
    - contradiction. }
  simpl. rewrite Hd. exact IH.
Qed.

Lemma terminal_phases_frozen_witness :
  run [Tick 3 (fun _ => 0); KeyDown " "; KeyDown "w"; Tick 3 (fun _ => 0)]
      (mkState gameOver [mkPosition 10 0] INITIAL_FOOD INITIAL_DIRECTION 0)
  = Some (mkState gameOver [mkPosition 10 0] INITIAL_FOOD INITIAL_DIRECTION 0).
Proof.
  apply (terminal_phases_frozen
           [Tick 3 (fun _ => 0); KeyDown " "; KeyDown "w"; Tick 3 (fun _ => 0)]
           (mkState gameOver [mkPosition 10 0] INITIAL_FOOD INITIAL_DIRECTION 0)).
  - right. reflexivity.
  - repeat constructor.
Defined.

(** * More on food placement *)

Lemma proposal_inGrid (rnd : Random) (i : nat) :
  valid_random rnd -> inGrid (proposal rnd i).
Proof. intros Hv. split; apply Hv. Qed.

Lemma generateFood_inGrid (fuel : nat) (rnd : Random) (body : list Position) (p : Position) :
  valid_random rnd -> generateFood fuel rnd body = Some p -> inGrid p.
Proof.
  intros Hv Hrun. unfold generateFood in Hrun.
  destruct (generateFood_from_sound _ _ _ _ _ Hrun) as [n [_ [_ ->]]].
  now apply proposal_inGrid.
Qed.

Lemma dispatch_food_inGrid (e : Event) (s s' : State) :
  validEvent e -> inGrid (food s) -> dispatch e s = Some s' -> inGrid (food s').
Proof.
  intros He Hf. destruct e as [fuel rnd|key|]; simpl in *.
  - intros Hrun.
    destruct (GameState_eq_playing (gameState s)) as [Hp|Hp].
    + rewrite (gameLoop_playing fuel rnd s Hp) in Hrun.
      destruct (snake s) as [|h t] eqn:Hs.
      * unfold step in Hrun. rewrite Hs in Hrun. now injection Hrun as <-.
      * destruct (step_cases fuel rnd s s' h t Hs Hrun) as
          [[-> _]|[[-> _]|[f [Hgen [-> _]]]]]; fields; try assumption.
        exact (generateFood_inGrid _ _ _ _ He Hgen).
    + rewrite (gameLoop_idle fuel rnd s Hp) in Hrun. now injection Hrun as <-.
  - intros [= <-]. now rewrite handleKeyPress_food.
  - destruct (startVisible s); [|discriminate]. intros [= <-].
    unfold inGrid, GRID_SIZE. simpl. lia.
Qed.

(** X11.  With draws in [0, GRID_SIZE), [generateFood] returns a cell of the
    grid; so after any run of events from the mounted state the food lies
    inside the grid. *)
Theorem food_within_grid (es : list Event) (s : State) :
  Forall validEvent es ->
  run es initialState = Some s ->
  inGrid (food s) /\
  (forall (fuel : nat) (rnd : Random) (p : Position),
     valid_random rnd -> generateFood fuel rnd (snake s) = Some p -> inGrid p).
Proof.
  intros Hes Hrun. split.
  - assert (Hinit : inGrid (food initialState))
      by (unfold inGrid, GRID_SIZE; simpl; lia).
    revert Hinit Hrun. generalize initialState as s0.
    induction Hes as [|e es He _ IH]; intros s0 Hf; simpl.
    + now intros [= <-].
    + destruct (dispatch e s0) as [s1|] eqn:Hd; [|discriminate].
      apply IH. exact (dispatch_food_inGrid e s0 s1 He Hf Hd).
  - intros fuel rnd p. apply generateFood_inGrid.
Qed.

Lemma food_within_grid_witness :
  inGrid (mkPosition 3 3).
Proof.
  refine (proj1 (food_within_grid
           [StartClick; KeyDown "ArrowRight";
            Tick 0 (fun _ => 0); Tick 0 (fun _ => 0); Tick 0 (fun _ => 0);
            Tick 0 (fun _ => 0); Tick 0 (fun _ => 0);
            KeyDown "s";
            Tick 0 (fun _ => 0); Tick 0 (fun _ => 0); Tick 0 (fun _ => 0);
            Tick 0 (fun _ => 0); Tick 1 (fun _ => 3)]
           (mkState playing [mkPosition 15 15; mkPosition 15 14]
                    (mkPosition 3 3) (mkPosition 0 1) 10) _ _)).
  - repeat (apply Forall_cons;
            [first [exact I | intros n; unfold GRID_SIZE; lia]|]).
    apply Forall_nil.
  - reflexivity.
Defined.

(** X12.  Eating the food on the last free cell hangs the game.  In phase
    [playing], for a duplicate-free snake of 399 segments inside the grid
    whose new head lands on the food, on the one cell the snake does not
    cover, the tick returns for no amount of fuel, whatever draws in
    [0, GRID_SIZE) the random stream gives. *)
Theorem full_grid_hangs
    (fuel : nat) (rnd : Random) (s : State) (h : Position) (t : list Position) :
  gameState s = playing ->
  snake s = h :: t ->
  NoDup (snake s) ->
  Forall inGrid (snake s) ->
  List.length (snake s) = 399%nat ->
  inGrid (nextHead h (direction s)) ->
  ~ In (nextHead h (direction s)) (snake s) ->
  nextHead h (direction s) = food s ->
  valid_random rnd ->
  gameLoop fuel rnd s = None.
Proof.
  intros Hp Hs Hnd Hgrid Hlen Hin Hfree Heat Hv.
  rewrite (gameLoop_playing fuel rnd s Hp). unfold step. rewrite Hs in *. cbv zeta.
  assert (Hfull : forall p, inGrid p -> In p (nextHead h (direction s) :: h :: t)).
  { intros p Hpin.
    apply (NoDup_length_incl (l := nextHead h (direction s) :: h :: t) (l' := allCells)).
    - now constructor.
    - rewrite allCells_length. cbn [List.length] in *. lia.
    - intros q [<-|Hq]; apply allCells_complete; [exact Hin|].
      rewrite Forall_forall in Hgrid. now apply Hgrid.
    - now apply allCells_complete. }
  apply hitsWall_false_iff in Hin. rewrite Hin.
  apply occupied_false_iff in Hfree. rewrite Hfree.
  apply eats_iff in Heat. rewrite Heat.
  unfold generateFood. rewrite generateFood_from_all_busy; [reflexivity|].
  intros m. apply occupied_true_iff, Hfull. now apply proposal_inGrid.
Qed.

Lemma serpentine_facts :
  distinctb serpentine = true /\
  forallb (fun p => negb (hitsWall p)) serpentine = true /\
  List.length serpentine = 400%nat.
Proof. vm_compute. repeat split. Qed.

Lemma full_grid_hangs_witness :
  gameLoop 1000 (fun _ => 7)
    (mkState playing (tl serpentine) (mkPosition 0 0) (mkPosition (-1) 0) 3980)
  = None.
Proof.
  destruct serpentine_facts as [Hd [Hg Hl]].
  assert (Hnd : NoDup (tl serpentine)).
  { apply distinctb_NoDup in Hd. change serpentine with (mkPosition 0 0 :: tl serpentine) in Hd.
    now inversion Hd. }
  assert (Hgrid : Forall inGrid (tl serpentine)).
  { apply Forall_forall. intros p Hp. apply hitsWall_false_iff.
    rewrite forallb_forall in Hg.
    assert (Hin : In p serpentine)
      by (change serpentine with (mkPosition 0 0 :: tl serpentine); now right).
    specialize (Hg p Hin). now destruct (hitsWall p). }
  assert (Hfree : ~ In (mkPosition 0 0) (tl serpentine)).
  { apply distinctb_NoDup in Hd. change serpentine with (mkPosition 0 0 :: tl serpentine) in Hd.
    now inversion Hd. }
  apply (full_grid_hangs 1000 (fun _ => 7)
           (mkState playing (tl serpentine) (mkPosition 0 0) (mkPosition (-1) 0) 3980)
           (mkPosition 1 0) (tl (tl serpentine))).
  - reflexivity.
  - reflexivity.
  - exact Hnd.
  - exact Hgrid.
  - cbn [snake]. change (List.length (tl serpentine)) with (pred (List.length serpentine)).
    rewrite Hl. reflexivity.
  - unfold inGrid, GRID_SIZE. simpl. lia.
  - exact Hfree.
  - reflexivity.
  - intros n. unfold GRID_SIZE. lia.
Defined.

(** X13.  A body of fewer than 400 segments leaves a cell of the grid free,
    and [generateFood] returns such a cell at its first iteration for
    suitable draws in [0, GRID_SIZE): below saturation the loop can always
    end. *)
Theorem free_cell_exists (body : list Position) :
  (List.length body < 400)%nat ->
  exists (p : Position) (rnd : Random),
    inGrid p /\ ~ In p body /\ valid_random rnd /\
    generateFood 1 rnd body = Some p.
Proof.
  intros Hlen.
  destruct (existsb (fun p => negb (occupied body p)) allCells) eqn:Hex.
  - apply existsb_exists in Hex as [p [Hp Hfree]].
    apply allCells_sound in Hp.
    assert (Hocc : occupied body p = false) by now destruct (occupied body p).
    exists p, (stutter 0 p p).
    split; [exact Hp|]. split; [now apply occupied_false_iff|].
    split; [now apply valid_random_stutter|].
    unfold generateFood. cbn [generateFood_from].
    rewrite proposal_stutter. cbn [Nat.ltb Nat.leb]. now rewrite Hocc.
  - exfalso.
    assert (Hincl : incl allCells body).
    { intros p Hp. apply occupied_true_iff.
      destruct (occupied body p) eqn:Hocc; [reflexivity|].
      assert (Hc : existsb (fun p => negb (occupied body p)) allCells = true).
      { apply existsb_exists. exists p. split; [exact Hp|]. now rewrite Hocc. }
      congruence. }
    pose proof (NoDup_incl_length allCells_NoDup Hincl) as Hle.
    rewrite allCells_length in Hle. lia.
Qed.

Lemma free_cell_exists_witness :
  exists (p : Position) (rnd : Random),
    inGrid p /\ ~ In p (tl serpentine) /\ valid_random rnd /\
    generateFood 1 rnd (tl serpentine) = Some p.
Proof.
  apply (free_cell_exists (tl serpentine)).
  change (List.length (tl serpentine)) with (pred (List.length serpentine)).
  rewrite (proj2 (proj2 serpentine_facts)). simpl. lia.
Defined.

(** * The drawn grid *)

Lemma gridIndices_range (index : Z) :
  In index gridIndices <-> 0 <= index < GRID_SIZE * GRID_SIZE.
Proof.
  unfold gridIndices, GRID_SIZE. rewrite in_map_iff. split.
  - intros [n [<- Hn]]. apply in_seq in Hn. lia.
  - intros Hi. exists (Z.to_nat index). split; [lia|]. apply in_seq. lia.
Qed.

Lemma cellPosition_of_index (index : Z) :
  0 <= index < GRID_SIZE * GRID_SIZE ->
  inGrid (cellPosition index) /\
  y (cellPosition index) * GRID_SIZE + x (cellPosition index) = index.
Proof.
  unfold inGrid, cellPosition, GRID_SIZE. cbn [x y]. intros Hi.
  rewrite Z.rem_mod_nonneg by lia.
  pose proof (Z.mod_pos_bound index 20 ltac:(lia)) as Hm.
  pose proof (Z.div_mod index 20 ltac:(lia)) as Hd.
  assert (Hq : 0 <= index / 20 < 20).
  { split; [apply Z.div_pos; lia|apply Z.div_lt_upper_bound; lia]. }
  lia.
Qed.

Lemma cellPosition_at (p : Position) :
  inGrid p ->
  0 <= y p * GRID_SIZE + x p < GRID_SIZE * GRID_SIZE /\
  cellPosition (y p * GRID_SIZE + x p) = p.
Proof.
  unfold inGrid, cellPosition, GRID_SIZE. intros [Hx Hy]. split; [lia|].
  rewrite Z.rem_mod_nonneg by lia.
  destruct p as [px py]. cbn [x y] in *. f_equal.
  - symmetry. apply (Z.mod_unique _ _ py); lia.
  - symmetry. apply (Z.div_unique _ _ _ px); lia.
Qed.

(** X14.  The indices drawn are 0 to 399, and [index] goes to the cell in
    column [index % GRID_SIZE] of row [floor (index / GRID_SIZE)]: every
    index gives a cell of the grid, and every cell of the grid is given by
    one index only, [y * GRID_SIZE + x]. *)
Theorem cell_index_bijection :
  (forall index : Z,
     In index gridIndices ->
     inGrid (cellPosition index) /\
     y (cellPosition index) * GRID_SIZE + x (cellPosition index) = index) /\
  (forall p : Position,
     inGrid p ->
     In (y p * GRID_SIZE + x p) gridIndices /\
     cellPosition (y p * GRID_SIZE + x p) = p /\
     forall index : Z,
       In index gridIndices -> cellPosition index = p ->
       index = y p * GRID_SIZE + x p).
Proof.
  split.
  - intros index Hi. apply cellPosition_of_index. now apply gridIndices_range.
  - intros p Hp. destruct (cellPosition_at p Hp) as [Hr Hc].
    split; [now apply gridIndices_range|]. split; [exact Hc|].
    intros index Hi <-. apply gridIndices_range in Hi.
    symmetry. apply (cellPosition_of_index index Hi).
Qed.

Lemma cell_index_bijection_witness :
  cellPosition 47 = mkPosition 7 2 /\
  In (y (mkPosition 19 19) * GRID_SIZE + x (mkPosition 19 19)) gridIndices.
Proof.
  destruct cell_index_bijection as [_ Hcell]. split.
  - reflexivity.
  - apply (Hcell (mkPosition 19 19)). unfold inGrid, GRID_SIZE. simpl. lia.
Defined.

Lemma isSnakeHead_true_iff (s : State) (c : Position) :
  isSnakeHead s c = true <-> exists t : list Position, snake s = c :: t.
Proof.
  unfold isSnakeHead. destruct (snake s) as [|h t].
  - split; [discriminate|intros [t' E]; discriminate].
  - rewrite eats_iff. split.
    + intros ->. now exists t.
    + intros [t' E]. now injection E.
Qed.

(** X15.  In a reachable state the three sprites never share a cell: no
    cell is both head and body, both head and food, or both body and food.
    The background chosen for a cell is then that of the head exactly on the
    first segment, of the body exactly on the other segments, of the food
    exactly on the food, and the empty one exactly off snake and food. *)
Theorem sprites_never_overlap (s : State) (c : Position) :
  reachable s ->
  isSnakeHead s c && isSnakeBody s c = false /\
  isSnakeHead s c && isFood s c = false /\
  isSnakeBody s c && isFood s c = false /\
  (cellKind s c = HeadCell <-> exists t : list Position, snake s = c :: t) /\
  (cellKind s c = BodyCell <-> In c (tl (snake s))) /\
  (cellKind s c = FoodCell <-> c = food s) /\
  (cellKind s c = EmptyCell <-> ~ In c (snake s) /\ c <> food s).
Proof.
  intros Hr.
  destruct (reachable_stateInv s Hr) as [[Hlen Hnd] [_ Hfood]].
  destruct (snake s) as [|h t] eqn:Hs; [simpl in Hlen; lia|].
  inversion Hnd as [|h' t' Hh Ht]; subst h' t'.
  assert (Hex : (exists t0 : list Position, h :: t = c :: t0) <-> h = c).
  { split; [intros [t0 E]; now injection E|intros ->; now exists t]. }
  assert (Hhead : isSnakeHead s c = true <-> h = c).
  { unfold isSnakeHead. rewrite Hs. apply eats_iff. }
  assert (Hbody : isSnakeBody s c = true <-> In c t).
  { unfold isSnakeBody. rewrite Hs. apply occupied_true_iff. }
  assert (Hf : isFood s c = true <-> c = food s).
  { unfold isFood. rewrite eats_iff. split; congruence. }
  rewrite Hex. unfold cellKind. cbn [tl]. simpl In in *.
  destruct (isSnakeHead s c), (isSnakeBody s c), (isFood s c);
    intuition (try discriminate; try congruence).
Qed.

Lemma sprites_never_overlap_witness :
  cellKind (mkState playing [mkPosition 15 15; mkPosition 15 14]
                    (mkPosition 3 3) (mkPosition 0 1) 10)
           (mkPosition 15 14) = BodyCell.
Proof.
  apply (proj1 (proj2 (proj2 (proj2 (proj2
           (sprites_never_overlap _ (mkPosition 15 14) reachable_grown)))))).
  simpl. now left.
Defined.

(** X16.  The grid is on screen only in the phases [playing] and [paused];
    in [menu] and [gameOver] no cell is drawn.  In a reachable state in phase
    [playing] or [paused] every segment of the snake is drawn, as head or
    body, in one cell of the grid and in no other. *)
Theorem snake_drawn_once (s : State) (p : Position) :
  (gameState s = menu \/ gameState s = gameOver -> drawnCells s = []) /\
  (reachable s ->
   gameState s = playing \/ gameState s = paused ->
   In p (snake s) ->
   exists index : Z,
     In index gridIndices /\
     cellPosition index = p /\
     In (index, cellKind s p) (drawnCells s) /\
     (cellKind s p = HeadCell \/ cellKind s p = BodyCell) /\
     forall (index' : Z) (k : CellKind),
       In (index', k) (drawnCells s) -> cellPosition index' = p ->
       index' = index /\ k = cellKind s p).
Proof.
  split.
  { intros [E|E]; unfold drawnCells, gridVisible; now rewrite E. }
  intros Hr Hphase Hp.
  assert (Hdrawn : drawnCells s
                   = map (fun index => (index, cellKind s (cellPosition index)))
                         gridIndices).
  { unfold drawnCells, gridVisible. destruct Hphase as [E|E]; now rewrite E. }
  destruct (reachable_gameInv s Hr) as [Hgrid _].
  rewrite Forall_forall in Hgrid. specialize (Hgrid p Hp).
  destruct (cellPosition_at p Hgrid) as [Hi Hc].
  apply gridIndices_range in Hi.
  exists (y p * GRID_SIZE + x p).
  split; [exact Hi|]. split; [exact Hc|]. split; [|split].
  - rewrite Hdrawn. apply in_map_iff. exists (y p * GRID_SIZE + x p).
    split; [now rewrite Hc|exact Hi].
  - unfold cellKind.
    destruct (isSnakeHead s p) eqn:H1; [now left|]. right.
    assert (H2 : isSnakeBody s p = true).
    { apply occupied_true_iff. destruct (snake s) as [|h t] eqn:Hs; [contradiction|].
      destruct Hp as [->|Hin]; [|exact Hin].
      assert (isSnakeHead s p = true) by (apply isSnakeHead_true_iff; now exists t).
      congruence. }
    now rewrite H2.
  - intros index' k Hin' Hc'. rewrite Hdrawn in Hin'.
    apply in_map_iff in Hin' as [i [E Hi']]. injection E as -> <-.
    apply gridIndices_range in Hi'. split.
    + rewrite <- Hc'. symmetry. apply (cellPosition_of_index index' Hi').
    + now rewrite Hc'.
Qed.

Lemma snake_drawn_once_witness :
  drawnCells initialState = [] /\
  exists index : Z,
    In index gridIndices /\
    cellPosition index = mkPosition 15 14 /\
    In (index, BodyCell)
       (drawnCells (mkState playing [mkPosition 15 15; mkPosition 15 14]
                            (mkPosition 3 3) (mkPosition 0 1) 10)).
Proof.
  split.
  - apply (proj1 (snake_drawn_once initialState (mkPosition 0 0))). now left.
  - destruct (proj2 (snake_drawn_once
                       (mkState playing [mkPosition 15 15; mkPosition 15 14]
                                (mkPosition 3 3) (mkPosition 0 1) 10)
                       (mkPosition 15 14))
                reachable_grown (or_introl eq_refl)
                (or_intror (or_introl eq_refl)))
      as [index [Hi [Hc [Hd _]]]].
    exists index. split; [exact Hi|]. split; [exact Hc|exact Hd].
Defined.

(** * The direction *)

(** X17.  In every reachable state the direction is one of the four unit
    vectors, so the cell the head moves to on a tick is a neighbour of the
    head: never the head's own cell, never a diagonal one. *)
Theorem direction_always_unit (s : State) :
  reachable s ->
  isDirection (direction s) /\
  forall (h : Position) (t : list Position),
    snake s = h :: t -> adjacent (nextHead h (direction s)) h.
Proof.
  intros Hr. destruct (reachable_stateInv s Hr) as [_ [Hd _]].
  split; [exact Hd|]. intros h t _. now apply adjacent_nextHead.
Qed.

Lemma direction_always_unit_witness :
  isDirection (mkPosition 0 1).
Proof. exact (proj1 (direction_always_unit _ reachable_grown)). Defined.
